(** * Catan starting boards: a shallow embedding of [main.py]

    The development follows the [Board] class of [main.py]: the fixed
    adjacency graph of the nineteen hexes, the resource pools, the
    shuffle-and-check generation loop and the read-only queries
    ([direction], [neighbors_for]).  Python exceptions are values of [exn];
    the [random] module is a tape of raw draws that is consumed left to
    right; the [while True] loop of [_generate] runs on fuel.  The last
    part follows [BoardUI.draw] and [BoardUI.redraw] over uninterpreted
    float arithmetic, with the canvas as the list of drawing calls. *)

From Stdlib Require Import ZArith List Permutation Lia.
From stdpp Require Import base option list list_numbers gmap strings.

Local Open Scope Z_scope.

(** ** Exceptions and results *)

Inductive exn : Type :=
  | KeyError (key : string)      (* [d[k]] on a dict without [k] *)
  | IndexError                   (* [l[i]] out of range *)
  | ValueError                   (* [randrange] on an empty range *)
  | StopIteration.               (* [next] on an exhausted generator *)

Inductive res (A : Type) : Type :=
  | Ok (a : A)
  | Raise (e : exn)
  | Diverge.                     (* the fuel of a [while True] loop ran out *)
Arguments Ok {A} a.
Arguments Raise {A} e.
Arguments Diverge {A}.

(** ** Data model *)

Inductive Direction : Type := DirE | DirSE | DirSW | DirW | DirNW | DirNE.

Inductive Terrain : Type := TerF | TerP | TerH | TerM | TerC | TerD.

Inductive PortKind : Type :=
  | PortAny | PortO | PortG | PortL | PortB | PortW.

Global Instance Direction_eq_dec : EqDecision Direction.
Proof. solve_decision. Defined.
Global Instance Terrain_eq_dec : EqDecision Terrain.
Proof. solve_decision. Defined.
Global Instance PortKind_eq_dec : EqDecision PortKind.
Proof. solve_decision. Defined.

(** [Tile = namedtuple('Tile', ['id', 'terrain', 'value'])] *)
Record Tile : Type := mkTile {
  Tile_id : Z;
  Tile_terrain : Terrain;
  Tile_value : option Z
}.

Global Instance Tile_eq_dec : EqDecision Tile.
Proof. solve_decision. Defined.

(** An edge is the triple [(from, to, direction)]. *)
Definition Edge : Type := Z * Z * Direction.

Definition edge_from (e : Edge) : Z := e.1.1.        (* e[0] *)
Definition edge_to (e : Edge) : Z := e.1.2.          (* e[1] *)
Definition edge_dir (e : Edge) : Direction := e.2.   (* e[2] *)

Definition Port : Type := Z * Direction * PortKind.

(** ** Class constants *)

Definition _terrain : list Terrain :=
  replicate 4 TerF ++ replicate 4 TerP ++ replicate 4 TerH
    ++ replicate 3 TerM ++ replicate 3 TerC.

Definition _numbers : list Z :=
  [5; 2; 6; 3; 8; 10; 9; 12; 11; 4; 8; 10; 9; 4; 5; 6; 3; 11].

Definition _ports : list PortKind :=
  [PortAny; PortO; PortG; PortAny; PortL; PortB; PortAny; PortAny; PortW].

Definition _graph : list Edge :=
  [(1,  2,  DirSW); (1,  12, DirE ); (1,  13, DirSE);
   (2,  3,  DirSW); (2,  13, DirE ); (2,  14, DirSE);
   (3,  4,  DirSE); (3,  14, DirE );
   (4,  5,  DirSE); (4,  14, DirNE); (4,  15, DirE );
   (5,  6,  DirE ); (5,  15, DirNE);
   (6,  7,  DirE ); (6,  15, DirNW); (6,  16, DirNE);
   (7,  8,  DirNE); (7,  16, DirNW);
   (8,  9,  DirNE); (8,  16, DirW ); (8,  17, DirNW);
   (9,  10, DirNW); (9,  17, DirW );
   (10, 11, DirNW); (10, 17, DirSW); (10, 18, DirW );
   (11, 12, DirW ); (11, 18, DirSW);
   (12, 13, DirSW); (12, 18, DirSE);
   (13, 14, DirSW); (13, 18, DirE ); (13, 19, DirSE);
   (14, 15, DirSE); (14, 19, DirE );
   (15, 16, DirE ); (15, 19, DirNE);
   (16, 17, DirNE); (16, 19, DirNW);
   (17, 18, DirNW); (17, 19, DirW );
   (18, 19, DirSW)].

Definition _port_locations : list (Z * Direction) :=
  [(1, DirNW); (2,  DirW);  (4,  DirW );
   (5, DirSW); (6,  DirSE); (8,  DirSE);
   (9, DirE ); (10, DirNE); (12, DirNE)].

Definition _direction_pairs (d : Direction) : Direction :=
  match d with
  | DirE => DirW | DirSW => DirNE | DirSE => DirNW
  | DirW => DirE | DirNE => DirSW | DirNW => DirSE
  end.

Definition invert (edge : Edge) : Edge :=
  (edge_to edge, edge_from edge, _direction_pairs (edge_dir edge)).

(** ** Python list indexing

    [l[i]] with an integer index: a negative index counts from the end, an
    index outside the list raises [IndexError]. *)

Definition getitem {A : Type} (l : list A) (i : Z) : res A :=
  let n := Z.of_nat (length l) in
  let j := if i <? 0 then i + n else i in
  if (0 <=? j) && (j <? n)
  then match l !! Z.to_nat j with
       | Some x => Ok x
       | None => Raise IndexError
       end
  else Raise IndexError.

(** [l.insert(i, x)] for a non-negative index: positions past the end
    append. *)
Definition list_insert_at {A : Type} (i : nat) (x : A) (l : list A) : list A :=
  take i l ++ x :: drop i l.

(** [enumerate(l, start)] *)
Fixpoint enumerate {A : Type} (l : list A) (start : Z) : list (Z * A) :=
  match l with
  | [] => []
  | x :: l' => (start, x) :: enumerate l' (start + 1)
  end.

(** ** The [Board] object *)

Record Board : Type := mkBoard {
  Board_options : gmap string bool;
  Board_tiles : list Tile;
  Board_ports : option (list Port);   (* set by [_generate] only *)
  Board_center_tile : Tile;
  Board_graph : list Edge
}.

(** [Board._edges_for]: stored edges that leave the tile, then the inverses
    of stored edges that reach it. *)
Definition _edges_for (self : Board) (tile : Tile) : list Edge :=
  filter (λ e, edge_from e = Tile_id tile) (Board_graph self)
    ++ (invert <$> filter (λ e, edge_to e = Tile_id tile) (Board_graph self)).

(** [Board.direction]: [next] over the generator of matching edges. *)
Definition direction (self : Board) (src dst : Tile) : res Direction :=
  match filter (λ e, edge_to e = Tile_id dst) (_edges_for self src) with
  | e :: _ => Ok (edge_dir e)
  | [] => Raise StopIteration
  end.

(** [Board.neighbors_for] *)
Definition neighbors_for (self : Board) (tile : Tile) : res (list Tile) :=
  foldr (λ e acc,
           match getitem (Board_tiles self) (edge_to e - 1), acc with
           | Ok t, Ok ts => Ok (t :: ts)
           | Ok _, r => r
           | Raise x, _ => Raise x
           | Diverge, _ => Diverge
           end)
        (Ok []) (_edges_for self tile).

(** ** The [random] module

    The generator is a tape of raw draws and a read position.
    [_randbelow n] reads one draw and reduces it below [n]; any sequence of
    in-range draws is the run of some tape. *)

Record rng : Type := mkRng { rng_tape : nat → nat; rng_pos : nat }.

Definition _randbelow (n : nat) (g : rng) : nat * rng :=
  ((rng_tape g (rng_pos g) mod n)%nat, mkRng (rng_tape g) (S (rng_pos g))).

(** [x[i], x[j] = x[j], x[i]]: both reads, then the write to [x[i]],
    then the write to [x[j]].  Python raises [IndexError] on an index past
    the end; [shuffle] never produces one, and the list is left as it is
    there. *)
Definition swap {A : Type} (x : list A) (i j : nat) : list A :=
  match x !! i, x !! j with
  | Some xi, Some xj => <[j:=xi]> (<[i:=xj]> x)
  | _, _ => x
  end.

(** [random.shuffle]:
    [for i in reversed(range(1, len(x))): j = randbelow(i + 1); swap].
    [shuffle_from i] runs the iterations [i], [i - 1], ..., [1]. *)
Fixpoint shuffle_from {A : Type} (i : nat) (x : list A) (g : rng)
  : list A * rng :=
  match i with
  | O => (x, g)
  | S i' =>
      let '(j, g') := _randbelow (S i) g in
      shuffle_from i' (swap x i j) g'
  end.

Definition shuffle {A : Type} (x : list A) (g : rng) : list A * rng :=
  shuffle_from (length x - 1)%nat x g.

(** [random.randrange(n)] *)
Definition randrange (n : nat) (g : rng) : res nat * rng :=
  match n with
  | O => (Raise ValueError, g)
  | S _ => let '(k, g') := _randbelow n g in (Ok k, g')
  end.

(** ** A state and exception monad for the method bodies

    The state is what a call can change: the generator and the [ports]
    attribute of the object under construction. *)

Record state : Type := mkState {
  st_rng : rng;
  st_ports : option (list Port)
}.

Definition M (A : Type) : Type := state → res A * state.

Definition ret {A : Type} (a : A) : M A := λ s, (Ok a, s).

Definition bind {A B : Type} (m : M A) (k : A → M B) : M B :=
  λ s, match m s with
       | (Ok a, s') => k a s'
       | (Raise e, s') => (Raise e, s')
       | (Diverge, s') => (Diverge, s')
       end.

Notation "'let*' x ':=' m 'in' k" := (bind m (λ x, k))
  (at level 10, x name, m at level 100, k at level 200).

Definition lift {A : Type} (r : res A) : M A := λ s, (r, s).

Definition with_rng {A : Type} (f : rng → A * rng) : M A :=
  λ s, let '(a, g') := f (st_rng s) in (Ok a, mkState g' (st_ports s)).

Definition randrangeM (n : nat) : M nat :=
  λ s, let '(r, g') := randrange n (st_rng s) in (r, mkState g' (st_ports s)).

Definition set_ports (ps : list Port) : M unit :=
  λ s, (Ok tt, mkState (st_rng s) (Some ps)).

Definition get_ports : M (option (list Port)) :=
  λ s, (Ok (st_ports s), s).

(** [options[key]] *)
Definition getopt (options : gmap string bool) (key : string) : M bool :=
  lift (match options !! key with
        | Some b => Ok b
        | None => Raise (KeyError key)
        end).

(** ** Generation *)

(** [v in (6, 8)]; [None] is in neither. *)
Definition is_red (v : option Z) : bool :=
  match v with
  | Some n => (n =? 6) || (n =? 8)
  | None => false
  end.

(** [Board._check_red_placement] *)
Fixpoint _check_red_placement (graph : list Edge)
    (tiles : list (Terrain * option Z)) : res bool :=
  match graph with
  | [] => Ok true
  | (i1, i2, _) :: graph' =>
      match getitem tiles (i1 - 1) with
      | Ok t1 =>
          match getitem tiles (i2 - 1) with
          | Ok t2 =>
              if is_red t1.2 && is_red t2.2 then Ok false
              else _check_red_placement graph' tiles
          | Raise e => Raise e
          | Diverge => Diverge
          end
      | Raise e => Raise e
      | Diverge => Diverge
      end
  end.

Definition make_tiles (tile_data : list (Terrain * option Z)) : list Tile :=
  (λ '(i, (t, v)), mkTile i t v) <$> enumerate tile_data 1.

(** One pass through the body of the [while True] loop of
    [Board._generate]; [None] is the [continue]. *)
Definition _generate_body (options : gmap string bool)
  : M (option (list Tile)) :=
  let* terrain := with_rng (shuffle _terrain) in
  let* rp := getopt options "randomize_production" in
  let* numbers :=
    (if rp : bool then with_rng (shuffle _numbers) else ret _numbers) in
  let* rq := getopt options "randomize_ports" in
  let* ports := (if rq : bool then with_rng (shuffle _ports) else ret _ports) in
  let* _ :=
    set_ports ((λ '((tile, dir), value), (tile, dir, value))
                 <$> zip _port_locations ports) in
  let tile_data := zip terrain (Some <$> numbers) in
  let* k := randrangeM (length tile_data + 1)%nat in
  let tile_data := list_insert_at k (TerD, None) tile_data in
  let* rp' := getopt options "randomize_production" in
  let* rejected :=
    (if rp' : bool
     then let* ok := lift (_check_red_placement _graph tile_data) in
          ret (negb ok)
     else ret false) in
  if rejected : bool then ret None else ret (Some (make_tiles tile_data)).

(** [Board._generate].  It runs inside [__init__] before the instance
    attribute [_graph] can be set, so the check reads the class graph. *)
Fixpoint _generate (fuel : nat) (options : gmap string bool)
  : M (list Tile) :=
  match fuel with
  | O => lift Diverge
  | S fuel' =>
      let* r := _generate_body options in
      match r with
      | Some tiles => ret tiles
      | None => _generate fuel' options
      end
  end.

(** [center or 10] *)
Definition center_or_10 (center : option Z) : Z :=
  match center with
  | Some c => if c =? 0 then 10 else c
  | None => 10
  end.

(** [Board.__init__(self, options, tiles=None, graph=None, center=1)] *)
Definition Board_init (fuel : nat) (options : gmap string bool)
    (tiles : option (list Tile)) (graph : option (list Edge))
    (center : option Z) : M Board :=
  let* tiles' := (match tiles with
            | Some (t :: ts) => ret (t :: ts)
            | _ => _generate fuel options
            end) in
  let* center_tile := lift (getitem tiles' (center_or_10 center)) in
  let* ports := get_ports in
  ret (mkBoard options tiles' ports center_tile
         (match graph with
          | Some (e :: es) => e :: es
          | _ => _graph
          end)).

(** The default value of the [center] parameter. *)
Definition default_center : option Z := Some 1.

(** [Board(options)] on a fresh object, with the generator [g]. *)
Definition Board_new (fuel : nat) (options : gmap string bool) (g : rng)
  : res Board * state :=
  Board_init fuel options None None default_center (mkState g None).

(** ** Sample inputs *)

Definition all_fixed : gmap string bool :=
  {[ "randomize_production" := false; "randomize_ports" := false ]}%string.

Definition all_random : gmap string bool :=
  {[ "randomize_production" := true; "randomize_ports" := true ]}%string.

Definition rng0 : rng := mkRng (λ i, (7 * i + 3)%nat) 0.

Definition no_board : Board :=
  mkBoard ∅ [] None (mkTile 0 TerD None) [].

Definition board_of (r : res Board * state) : Board :=
  match r.1 with
  | Ok b => b
  | _ => no_board
  end.

(** [Board(options)] with nothing randomized but terrain and desert. *)
Definition sample_fixed : Board :=
  Eval vm_compute in board_of (Board_new 1 all_fixed rng0).

(** [Board(options)] with everything randomized; the eleventh pass of
    the loop is the first to satisfy the red check. *)
Definition sample_random : Board :=
  Eval vm_compute in board_of (Board_new 12 all_random rng0).

(** ** Properties the claims are stated with *)

(** Two slots touch when the graph stores an edge between them, in either
    direction. *)
Definition adjacent (graph : list Edge) (a b : Z) : Prop :=
  ∃ d, (a, b, d) ∈ graph ∨ (b, a, d) ∈ graph.

(** A tile is hot when its value is 6 or 8. *)
Definition hot (t : Tile) : Prop :=
  Tile_value t = Some 6 ∨ Tile_value t = Some 8.

(** No edge of the graph joins two hot tiles. *)
Definition red_free (graph : list Edge) (tiles : list Tile) : Prop :=
  ∀ i1 i2 d t1 t2,
    (i1, i2, d) ∈ graph →
    t1 ∈ tiles → Tile_id t1 = i1 →
    t2 ∈ tiles → Tile_id t2 = i2 →
    ¬ (hot t1 ∧ hot t2).

(** Construction fails and leaves no trace: it raises the error of a
    missing key and hands back the state it started from, generator
    included. *)
Definition fails_without_trace (fuel : nat) (options : gmap string bool)
    (g : rng) : Prop :=
  ∃ key, Board_new fuel options g = (Raise (KeyError key), mkState g None).

(** [[t.value for t in tiles if t.value is not None]] *)
Definition values_of (tiles : list Tile) : list Z := omap Tile_value tiles.

(** [collections.Counter([t.terrain for t in tiles])[x]] *)
Definition terrain_count (x : Terrain) (tiles : list Tile) : nat :=
  length (filter (λ t, Tile_terrain t = x) tiles).

(** What one pass of the loop lays out: a permutation of the terrain pool
    zipped with the numbers (shuffled or not), and the desert inserted at
    one of the nineteen positions. *)
Definition laid_out (rp : bool) (tile_data : list (Terrain * option Z))
  : Prop :=
  ∃ terrain numbers k,
    terrain ≡ₚ _terrain
    ∧ (if rp then numbers ≡ₚ _numbers else numbers = _numbers)
    ∧ (k ≤ 18)%nat
    ∧ tile_data = list_insert_at k (TerD, None) (zip terrain (Some <$> numbers)).

(** ** Edges at a slot

    [_edges_for] and [direction] read the graph of the board and the ids of
    the tiles only. *)

Definition edges_at (graph : list Edge) (s : Z) : list Edge :=
  filter (λ e, edge_from e = s) graph
    ++ (invert <$> filter (λ e, edge_to e = s) graph).

Definition direction_at (graph : list Edge) (a b : Z) : res Direction :=
  match filter (λ e, edge_to e = b) (edges_at graph a) with
  | e :: _ => Ok (edge_dir e)
  | [] => Raise StopIteration
  end.

(** Checks over the fixed graph, run once: the edges at a slot, the two
    directions of a stored edge, the step from a slot to the next. *)

Definition slot_covered (s : Z) : bool :=
  bool_decide (NoDup (edges_at _graph s))
  && forallb (λ n, (length (filter (λ e, edge_to e = n) (edges_at _graph s))
                    =? 1)%nat)
       (edge_to <$> edges_at _graph s).

Definition edge_invertible (e : Edge) : bool :=
  match direction_at _graph (edge_from e) (edge_to e),
        direction_at _graph (edge_to e) (edge_from e) with
  | Ok d1, Ok d2 =>
      bool_decide (d1 = edge_dir e) && bool_decide (d2 = _direction_pairs d1)
      && bool_decide (d1 = _direction_pairs d2)
  | _, _ => false
  end.

Definition path_step (k : Z) : bool :=
  bool_decide ((k, k + 1) ∈ (λ e, (edge_from e, edge_to e)) <$> _graph).

(** The red check read off the tile values alone. *)
Definition values_red_free (values : list (option Z)) : bool :=
  forallb (λ e,
             negb (is_red (default None (values !! Z.to_nat (edge_from e - 1)))
                   && is_red (default None (values !! Z.to_nat (edge_to e - 1)))))
    _graph.

(** The values of a board laid out from the unshuffled numbers, with the
    desert at position [k]. *)
Definition fixed_values (k : nat) : list (option Z) :=
  take k (Some <$> _numbers) ++ None :: drop k (Some <$> _numbers).

(** Every edge of the fixed graph joins two of the slots 1..19. *)
Definition edge_in_range (e : Edge) : bool :=
  (1 <=? edge_from e) && (edge_from e <=? 19)
  && (1 <=? edge_to e) && (edge_to e <=? 19).

(** [[(tile, dir, value) for (tile, dir), value in zip(_port_locations, ports)]] *)
Definition port_location (p : Port) : Z * Direction := p.1.
Definition port_kind (p : Port) : PortKind := p.2.

(** The draws of one pass of the loop of [_generate], in the order the
    code makes them. *)
Record pass : Type := mkPass {
  pass_terrain : list Terrain;
  pass_numbers : list Z;
  pass_ports : list PortKind;
  pass_desert : nat;
  pass_rng : rng
}.

Definition draw_pass (rp rq : bool) (g : rng) : pass :=
  let t := shuffle _terrain g in
  let n := if rp then shuffle _numbers t.2 else (_numbers, t.2) in
  let p := if rq then shuffle _ports n.2 else (_ports, n.2) in
  let k := _randbelow (S (length (zip t.1 (Some <$> n.1)))) p.2 in
  mkPass t.1 n.1 p.1 k.1 k.2.

Definition pass_tile_data (p : pass) : list (Terrain * option Z) :=
  list_insert_at (pass_desert p) (TerD, None)
    (zip (pass_terrain p) (Some <$> pass_numbers p)).

Definition pass_port_list (p : pass) : list Port :=
  (λ '((tile, dir), value), (tile, dir, value))
    <$> zip _port_locations (pass_ports p).

Definition pass_state (p : pass) : state :=
  mkState (pass_rng p) (Some (pass_port_list p)).

(** A slot of the fixed graph touches between three and six others. *)
Definition degree_in_range (s : Z) : bool :=
  let n := length (edges_at _graph s) in
  (3 <=? n)%nat && (n <=? 6)%nat.

(** ** The renderer: [BoardUI.draw] and [BoardUI.redraw]

    Floating-point arithmetic is not interpreted: the renderer runs over
    any type of numbers that has the operations it uses.  The canvas is
    the list of [_draw_tile] and [_draw_port] calls made so far. *)

Record float_ops : Type := mkFloatOps {
  fl : Type;
  of_int : Z → fl;            (* an [int] where a float is computed with *)
  fadd : fl → fl → fl;
  fmul : fl → fl → fl;
  radians : Z → fl;           (* [math.radians] of an [int] *)
  fcos : fl → fl;
  fsin : fl → fl
}.

(** What the renderer can raise beside the exceptions of the board. *)
Inductive ui_exn : Type :=
  | BoardExn (e : exn)
  | CentersKeyError (tile_id : Z)   (* [centers[tile_id]] *)
  | PortsAttributeError.            (* [board.ports] was never assigned *)

Inductive ui_res (A : Type) : Type :=
  | UiOk (a : A)
  | UiRaise (e : ui_exn)
  | UiDiverge.
Arguments UiOk {A} a.
Arguments UiRaise {A} e.
Arguments UiDiverge {A}.

Definition of_res {A : Type} (r : res A) : ui_res A :=
  match r with
  | Ok a => UiOk a
  | Raise e => UiRaise (BoardExn e)
  | Diverge => UiDiverge
  end.

Definition ui_bind {A B : Type} (r : ui_res A) (k : A → ui_res B) : ui_res B :=
  match r with
  | UiOk a => k a
  | UiRaise e => UiRaise e
  | UiDiverge => UiDiverge
  end.

Definition _tile_radius : Z := 50.
Definition _tile_padding : Z := 3.
Definition _board_center : Z * Z := (300, 300).
Definition _angle_order : list Direction :=
  [DirE; DirSE; DirSW; DirW; DirNW; DirNE].

(** [tuple.index]: the first position of [x], [ValueError] without one. *)
Fixpoint index_from {A : Type} `{EqDecision A} (x : A) (l : list A) (i : Z)
  : res Z :=
  match l with
  | [] => Raise ValueError
  | y :: l' => if decide (y = x) then Ok i else index_from x l' (i + 1)
  end.

Definition tuple_index {A : Type} `{EqDecision A} (l : list A) (x : A) : res Z :=
  index_from x l 0.

(** A [dict] with integer keys, in insertion order. *)
Fixpoint dict_set {V : Type} (k : Z) (v : V) (d : list (Z * V))
  : list (Z * V) :=
  match d with
  | [] => [(k, v)]
  | (k', v') :: d' =>
      if decide (k' = k) then (k, v) :: d' else (k', v') :: dict_set k v d'
  end.

Fixpoint dict_get {V : Type} (k : Z) (d : list (Z * V)) : option V :=
  match d with
  | [] => None
  | (k', v') :: d' => if decide (k' = k) then Some v' else dict_get k d'
  end.

Section draw.
Context (ops : float_ops).

Inductive canvas_call : Type :=
  | TileCall (x y : fl ops) (terrain : Terrain) (value : option Z)
  | PortCall (x y : fl ops) (angle : Z) (value : PortKind).

(** [math.cos(math.radians(30)) * self._tile_radius] *)
Definition _center_to_edge : fl ops :=
  fmul ops (fcos ops (radians ops 30)) (of_int ops _tile_radius).

(** The centre one step away from [ref_center] at angle [theta]:
    [radius = 2 * self._center_to_edge + self._tile_padding] and
    [(ref_center[0] + radius * cos(theta), ref_center[1] + radius * sin(theta))]. *)
Definition step_from (ref_center : fl ops * fl ops) (theta : Z)
  : fl ops * fl ops :=
  let radius :=
    fadd ops (fmul ops (of_int ops 2) _center_to_edge)
      (of_int ops _tile_padding) in
  let dx := fmul ops radius (fcos ops (radians ops theta)) in
  let dy := fmul ops radius (fsin ops (radians ops theta)) in
  (fadd ops ref_center.1 dx, fadd ops ref_center.2 dy).

(** The first loop of [draw]: the centre of each tile from the centre of
    the tile before it. *)
Fixpoint place_tiles (board : Board) (tiles : list Tile) (last : option Tile)
    (centers : list (Z * (fl ops * fl ops)))
  : ui_res (list (Z * (fl ops * fl ops))) :=
  match tiles with
  | [] => UiOk centers
  | tile :: tiles' =>
      match last with
      | None =>
          place_tiles board tiles' (Some tile)
            (dict_set (Tile_id tile) (of_int ops 0, of_int ops 0) centers)
      | Some last_tile =>
          match dict_get (Tile_id last_tile) centers with
          | None => UiRaise (CentersKeyError (Tile_id last_tile))
          | Some ref_center =>
              ui_bind (of_res (direction board last_tile tile)) (λ d,
              ui_bind (of_res (tuple_index _angle_order d)) (λ i,
              let theta := i * 60 in
              place_tiles board tiles' (Some tile)
                (dict_set (Tile_id tile) (step_from ref_center theta)
                   centers)))
          end
      end
  end.

(** The second loop: a centre and an angle for each port. *)
Fixpoint place_ports (ports : list Port)
    (centers : list (Z * (fl ops * fl ops)))
    (port_centers : list (fl ops * fl ops * Z))
  : ui_res (list (fl ops * fl ops * Z)) :=
  match ports with
  | [] => UiOk port_centers
  | (tile_id, dirn, value) :: ports' =>
      match dict_get tile_id centers with
      | None => UiRaise (CentersKeyError tile_id)
      | Some ref_center =>
          ui_bind (of_res (tuple_index _angle_order dirn)) (λ i,
          let theta := i * 60 in
          let c := step_from ref_center theta in
          place_ports ports' centers (port_centers ++ [(c.1, c.2, theta)]))
      end
  end.

(** [offx, offy], after the hack that centres the board. *)
Definition board_offset : fl ops * fl ops :=
  let radius :=
    fadd ops (fmul ops (of_int ops 4) _center_to_edge)
      (of_int ops (2 * _tile_padding)) in
  (fadd ops (of_int ops _board_center.1)
     (fmul ops radius (fcos ops (radians ops 240))),
   fadd ops (of_int ops _board_center.2)
     (fmul ops radius (fsin ops (radians ops 240)))).

(** [dict((tile_id, (x + offx, y + offy)) for tile_id, (x, y) in centers.items())] *)
Definition shift_centers (off : fl ops * fl ops)
    (centers : list (Z * (fl ops * fl ops)))
  : list (Z * (fl ops * fl ops)) :=
  foldl (λ d '(tile_id, (x, y)),
           dict_set tile_id (fadd ops x off.1, fadd ops y off.2) d)
    [] centers.

(** The loop over the shifted centres: one [_draw_tile] per entry. *)
Fixpoint draw_tiles (board : Board)
    (centers : list (Z * (fl ops * fl ops))) (canvas : list canvas_call)
  : ui_res unit * list canvas_call :=
  match centers with
  | [] => (UiOk tt, canvas)
  | (tile_id, (x, y)) :: centers' =>
      match getitem (Board_tiles board) (tile_id - 1) with
      | Ok tile =>
          draw_tiles board centers'
            (canvas ++ [TileCall x y (Tile_terrain tile) (Tile_value tile)])
      | Raise e => (UiRaise (BoardExn e), canvas)
      | Diverge => (UiDiverge, canvas)
      end
  end.

(** [BoardUI.draw] *)
Definition draw (board : Board) (canvas : list canvas_call)
  : ui_res unit * list canvas_call :=
  match place_tiles board (Board_tiles board) None [] with
  | UiOk centers =>
      match Board_ports board with
      | None => (UiRaise PortsAttributeError, canvas)
      | Some ports =>
          match place_ports ports centers [] with
          | UiOk port_centers =>
              let off := board_offset in
              let centers := shift_centers off centers in
              match draw_tiles board centers canvas with
              | (UiOk _, canvas) =>
                  let port_centers :=
                    (λ '(x, y, t), (fadd ops x off.1, fadd ops y off.2, t + 180))
                      <$> port_centers in
                  (UiOk tt,
                   canvas
                     ++ ((λ '((x, y, t), value), PortCall x y t value)
                           <$> zip port_centers (port_kind <$> ports)))
              | failed => failed
              end
          | UiRaise e => (UiRaise e, canvas)
          | UiDiverge => (UiDiverge, canvas)
          end
      end
  | UiRaise e => (UiRaise e, canvas)
  | UiDiverge => (UiDiverge, canvas)
  end.

(** [BoardUI.redraw]: clear the canvas, build a board, draw it. *)
Definition redraw (fuel : nat) (options : gmap string bool) (g : rng)
    (canvas : list canvas_call)
  : ui_res unit * list canvas_call * rng :=
  let canvas := [] in
  match Board_new fuel options g with
  | (Ok board, s) => (draw board canvas, st_rng s)
  | (Raise e, s) => (UiRaise (BoardExn e), canvas, st_rng s)
  | (Diverge, s) => (UiDiverge, canvas, st_rng s)
  end.

(** The tile and the port that a call draws. *)
Definition call_tile (c : canvas_call) : option (Terrain * option Z) :=
  match c with
  | TileCall _ _ terrain value => Some (terrain, value)
  | PortCall _ _ _ _ => None
  end.

Definition call_port (c : canvas_call) : option (Z * PortKind) :=
  match c with
  | TileCall _ _ _ _ => None
  | PortCall _ _ angle value => Some (angle, value)
  end.
End draw.

(** A stand-in for the floats, to run the renderer on sample boards: the
    integers, with the trigonometry left out. *)
Definition Z_ops : float_ops :=
  mkFloatOps Z (λ z, z) Z.add Z.mul (λ z, z) (λ _, 1) (λ _, 0).

(** The angle, in degrees, that the renderer takes for a direction:
    [self._angle_order.index(direction) * 60]. *)
Definition angle_of (d : Direction) : Z :=
  match tuple_index _angle_order d with
  | Ok i => i * 60
  | _ => 0
  end.

(** Every port sits on one of the slots 1..19. *)
Definition port_in_range (l : Z * Direction) : bool :=
  (1 <=? l.1) && (l.1 <=? 19).

(** ** The shuffle is a permutation *)

Lemma swap_Permutation {A : Type} (x : list A) (i j : nat) : swap x i j ≡ₚ x.
Proof.
  unfold swap.
  destruct (x !! i) as [xi|] eqn:Hi; [|done].
  destruct (x !! j) as [xj|] eqn:Hj; [|done].
  by apply Permutation_insert_swap.
Qed.

Lemma shuffle_from_Permutation {A : Type} (i : nat) (x : list A) (g : rng) :
  (shuffle_from i x g).1 ≡ₚ x.
Proof.
  revert x g. induction i as [|i IH]; intros x g; [done|].
  cbn [shuffle_from]. destruct (_randbelow (S (S i)) g) as [j g'].
  rewrite IH. apply swap_Permutation.
Qed.

Lemma shuffle_Permutation {A : Type} (x : list A) (g : rng) :
  (shuffle x g).1 ≡ₚ x.
Proof. apply shuffle_from_Permutation. Qed.

(** A shuffle reads one draw for each position but the first, and leaves
    the tape as it is. *)
Lemma shuffle_from_state {A : Type} (i : nat) (x : list A) (g : rng) :
  (shuffle_from i x g).2 = mkRng (rng_tape g) (rng_pos g + i).
Proof.
  revert x g. induction i as [|i IH]; intros x g.
  - destruct g as [tape pos]. cbn. by rewrite Nat.add_0_r.
  - cbn [shuffle_from].
    destruct (_randbelow (S (S i)) g) as [j g'] eqn:Hj.
    rewrite IH. unfold _randbelow in Hj. injection Hj as _ <-.
    cbn [rng_tape rng_pos]. f_equal. lia.
Qed.

Lemma shuffle_state {A : Type} (x : list A) (g : rng) :
  (shuffle x g).2 = mkRng (rng_tape g) (rng_pos g + (length x - 1)).
Proof. apply shuffle_from_state. Qed.

(** ** Inversion of the monad *)

Lemma bind_Ok {A B : Type} (m : M A) (k : A → M B) s b s' :
  bind m k s = (Ok b, s') →
  ∃ a s1, m s = (Ok a, s1) ∧ k a s1 = (Ok b, s').
Proof.
  unfold bind. destruct (m s) as [[a|e|] s1]; intros H; try discriminate.
  by exists a, s1.
Qed.

Lemma getopt_Ok options key b s s' :
  getopt options key s = (Ok b, s') → options !! key = Some b ∧ s' = s.
Proof.
  unfold getopt, lift. destruct (options !! key); intros H; by simplify_eq.
Qed.

Lemma with_rng_Ok {A : Type} (f : rng → A * rng) a s s' :
  with_rng f s = (Ok a, s') →
  a = (f (st_rng s)).1 ∧ st_ports s' = st_ports s.
Proof.
  unfold with_rng. destruct (f (st_rng s)) as [a' g']. intros H.
  by simplify_eq.
Qed.

Lemma _randbelow_lt n g : (0 < n)%nat → ((_randbelow n g).1 < n)%nat.
Proof. intros Hn. unfold _randbelow. cbn [fst]. apply Nat.mod_upper_bound. lia. Qed.

Lemma randrangeM_Ok n k s s' :
  randrangeM n s = (Ok k, s') → (k < n)%nat ∧ st_ports s' = st_ports s.
Proof.
  unfold randrangeM, randrange. destruct n as [|n]; [done|].
  pose proof (_randbelow_lt (S n) (st_rng s)) as Hlt.
  destruct (_randbelow (S n) (st_rng s)) as [k' g']. intros H.
  injection H as <- <-. split; [apply Hlt; lia|done].
Qed.

Lemma lift_Ok {A : Type} (r : res A) a s s' :
  lift r s = (Ok a, s') → r = Ok a ∧ s' = s.
Proof. unfold lift. intros H. by simplify_eq. Qed.

Lemma ret_Ok {A : Type} (a b : A) s s' :
  ret a s = (Ok b, s') → b = a ∧ s' = s.
Proof. unfold ret. intros H. by simplify_eq. Qed.

(** ** What a pass of the loop returns *)

Lemma shuffled_numbers (rp : bool) numbers s s1 :
  (if rp then with_rng (shuffle _numbers) else ret _numbers) s
    = (Ok numbers, s1) →
  (if rp then numbers ≡ₚ _numbers else numbers = _numbers)
  ∧ st_ports s1 = st_ports s.
Proof.
  destruct rp.
  - intros [-> ?]%with_rng_Ok. split; [apply shuffle_Permutation|done].
  - intros [-> ->]%ret_Ok. done.
Qed.

Lemma _generate_body_Ok options s r s' :
  _generate_body options s = (Ok r, s') →
  ∃ rp rq tile_data,
    options !! "randomize_production"%string = Some rp
    ∧ options !! "randomize_ports"%string = Some rq
    ∧ laid_out rp tile_data
    ∧ is_Some (st_ports s')
    ∧ match r with
      | Some tiles =>
          tiles = make_tiles tile_data
          ∧ (rp = true → _check_red_placement _graph tile_data = Ok true)
      | None => rp = true ∧ _check_red_placement _graph tile_data = Ok false
      end.
Proof.
  unfold _generate_body. intros H.
  apply bind_Ok in H as (terrain & s1 & [-> _]%with_rng_Ok & H).
  apply bind_Ok in H as (rp & s2 & [Hrp ->]%getopt_Ok & H).
  apply bind_Ok in H as (numbers & s3 & [Hnum _]%shuffled_numbers & H).
  apply bind_Ok in H as (rq & s4 & [Hrq ->]%getopt_Ok & H).
  apply bind_Ok in H as (ports & s5 & _ & H).
  apply bind_Ok in H as ([] & s6 & Hset & H).
  apply bind_Ok in H as (k & s7 & [Hk Hp7]%randrangeM_Ok & H).
  apply bind_Ok in H as (rp' & s8 & [Hrp' ->]%getopt_Ok & H).
  apply bind_Ok in H as (rejected & s9 & Hrej & H).
  assert (rp' = rp) as -> by congruence.
  set (terrain := (shuffle _terrain (st_rng s)).1) in *.
  assert (terrain ≡ₚ _terrain) as Hter by apply shuffle_Permutation.
  assert (length numbers = 18%nat) as Hlen.
  { destruct rp; cbn in Hnum; by rewrite Hnum. }
  exists rp, rq, (list_insert_at k (TerD, None) (zip terrain (Some <$> numbers))).
  assert (is_Some (st_ports s9) ∧
          (if rejected then rp = true ∧
             _check_red_placement _graph
               (list_insert_at k (TerD, None) (zip terrain (Some <$> numbers)))
               = Ok false
           else rp = true →
             _check_red_placement _graph
               (list_insert_at k (TerD, None) (zip terrain (Some <$> numbers)))
               = Ok true)) as [Hports Hchk].
  { unfold set_ports in Hset. injection Hset as <-. destruct rp.
    - apply bind_Ok in Hrej as (ok & sa & [Hok ->]%lift_Ok & [-> ->]%ret_Ok).
      rewrite Hp7. split; [by eexists|]. destruct ok; cbn [negb]; auto.
    - apply ret_Ok in Hrej as [-> ->]. rewrite Hp7. split; [by eexists|done]. }
  split; [exact Hrp|]. split; [exact Hrq|]. split; [|split].
  - exists terrain, numbers, k. split; [exact Hter|]. split; [exact Hnum|].
    split; [|reflexivity].
    rewrite length_zip_with, length_fmap, Hlen, (Permutation_length Hter) in Hk.
    change (length _terrain) with 18%nat in Hk. lia.
  - destruct rejected; apply ret_Ok in H as [-> ->]; exact Hports.
  - destruct rejected; apply ret_Ok in H as [-> ->].
    + exact Hchk.
    + split; [reflexivity|exact Hchk].
Qed.

(** ** What generation returns *)

Lemma _generate_Ok fuel options s tiles s' :
  _generate fuel options s = (Ok tiles, s') →
  ∃ rp rq tile_data,
    options !! "randomize_production"%string = Some rp
    ∧ options !! "randomize_ports"%string = Some rq
    ∧ laid_out rp tile_data
    ∧ tiles = make_tiles tile_data
    ∧ (rp = true → _check_red_placement _graph tile_data = Ok true)
    ∧ is_Some (st_ports s').
Proof.
  revert s. induction fuel as [|fuel IH]; intros s; [done|].
  cbn [_generate]. intros H.
  apply bind_Ok in H as (r & s1 & Hbody & H).
  destruct r as [tiles'|]; [|by apply IH in H].
  apply ret_Ok in H as [-> ->].
  apply _generate_body_Ok in Hbody
    as (rp & rq & tile_data & Hrp & Hrq & Hlay & Hports & -> & Hchk).
  by exists rp, rq, tile_data.
Qed.

Lemma getitem_Ok {A : Type} (l : list A) (i : Z) (x : A) :
  getitem l i = Ok x →
  l !! Z.to_nat (if i <? 0 then i + Z.of_nat (length l) else i) = Some x.
Proof.
  unfold getitem. cbv zeta.
  destruct (_ && _); [|done].
  destruct (l !! _) as [y|]; [|done]. congruence.
Qed.

Lemma getitem_lookup {A : Type} (l : list A) (n : nat) (x : A) :
  l !! n = Some x → getitem l (Z.of_nat n) = Ok x.
Proof.
  intros Hl. pose proof (lookup_lt_Some _ _ _ Hl) as Hlt. unfold getitem.
  destruct (Z.ltb_spec (Z.of_nat n) 0) as [?|_]; [lia|].
  destruct (Z.leb_spec 0 (Z.of_nat n)) as [_|?]; [|lia].
  destruct (Z.ltb_spec (Z.of_nat n) (Z.of_nat (length l))) as [_|?]; [|lia].
  cbn [andb]. by rewrite Nat2Z.id, Hl.
Qed.

Lemma Board_new_Ok fuel options g b s' :
  Board_new fuel options g = (Ok b, s') →
  ∃ s1,
    _generate fuel options (mkState g None) = (Ok (Board_tiles b), s1)
    ∧ Board_tiles b !! 1%nat = Some (Board_center_tile b)
    ∧ Board_graph b = _graph
    ∧ Board_options b = options
    ∧ Board_ports b = st_ports s'.
Proof.
  unfold Board_new, Board_init. intros H.
  apply bind_Ok in H as (tiles & s1 & Hgen & H).
  apply bind_Ok in H as (center & s2 & [Hc ->]%lift_Ok & H).
  apply bind_Ok in H as (ports & s3 & Hp & H).
  unfold get_ports in Hp. apply ret_Ok in H as [-> ->]. simplify_eq.
  exists s3. cbn. split_and!; try done.
  by apply getitem_Ok in Hc.
Qed.

(** ** Tiles built from the laid-out pairs *)

Lemma enumerate_imap {A : Type} (l : list A) (start : Z) :
  enumerate l start = imap (λ i x, (start + Z.of_nat i, x)) l.
Proof.
  revert start. induction l as [|x l IH]; intros start; [done|].
  cbn [enumerate imap]. rewrite IH. f_equal.
  - f_equal. lia.
  - apply imap_ext. intros i y _. cbn. f_equal. lia.
Qed.

Lemma make_tiles_imap tile_data :
  make_tiles tile_data
  = imap (λ i p, mkTile (1 + Z.of_nat i) p.1 p.2) tile_data.
Proof.
  unfold make_tiles. rewrite enumerate_imap, fmap_imap.
  apply imap_ext. by intros i [t v] _.
Qed.

Lemma make_tiles_lookup tile_data n :
  make_tiles tile_data !! n
  = (λ p, mkTile (1 + Z.of_nat n) p.1 p.2) <$> tile_data !! n.
Proof. by rewrite make_tiles_imap, list_lookup_imap. Qed.

Lemma length_make_tiles tile_data :
  length (make_tiles tile_data) = length tile_data.
Proof. by rewrite make_tiles_imap, length_imap. Qed.

Lemma make_tiles_terrain tile_data :
  Tile_terrain <$> make_tiles tile_data = tile_data.*1.
Proof.
  apply list_eq. intros n.
  rewrite !list_lookup_fmap, make_tiles_lookup.
  by destruct (tile_data !! n).
Qed.

Lemma make_tiles_value tile_data :
  Tile_value <$> make_tiles tile_data = tile_data.*2.
Proof.
  apply list_eq. intros n.
  rewrite !list_lookup_fmap, make_tiles_lookup.
  by destruct (tile_data !! n).
Qed.

Lemma make_tiles_id tile_data :
  Tile_id <$> make_tiles tile_data = seqZ 1 (Z.of_nat (length tile_data)).
Proof.
  apply list_eq. intros n.
  rewrite list_lookup_fmap, make_tiles_lookup.
  destruct (tile_data !! n) as [p|] eqn:Hn; cbn.
  - apply lookup_lt_Some in Hn. rewrite lookup_seqZ_lt by lia. done.
  - apply lookup_ge_None in Hn. rewrite lookup_seqZ_ge by lia. done.
Qed.

Lemma make_tiles_elem tile_data t :
  t ∈ make_tiles tile_data →
  1 ≤ Tile_id t ∧
  tile_data !! Z.to_nat (Tile_id t - 1) = Some (Tile_terrain t, Tile_value t).
Proof.
  intros [n Hn]%list_elem_of_lookup. rewrite make_tiles_lookup in Hn.
  destruct (tile_data !! n) as [[ter v]|] eqn:Hp; [|done].
  cbn in Hn. injection Hn as <-. cbn. split; [lia|].
  by replace (Z.to_nat (1 + Z.of_nat n - 1)) with n by lia.
Qed.

Lemma values_of_fmap tiles : values_of tiles = omap id (Tile_value <$> tiles).
Proof.
  unfold values_of. induction tiles as [|t tiles IH]; [done|].
  cbn. rewrite IH. done.
Qed.

Lemma omap_id_Some {A : Type} (l : list A) : omap id (Some <$> l) = l.
Proof. induction l as [|x l IH]; [done|]. cbn. by rewrite IH. Qed.

Lemma omap_id_insert_None {A : Type} (k : nat) (l : list (option A)) :
  omap id (take k l ++ None :: drop k l) = omap id l.
Proof.
  transitivity (omap id (take k l) ++ omap id (drop k l)).
  - by rewrite omap_app.
  - by rewrite <- omap_app, take_drop.
Qed.

(** ** Shape of a laid-out board *)

Section laid_out.
Context (rp : bool) (tile_data : list (Terrain * option Z)).
Hypothesis Hlay : laid_out rp tile_data.

Lemma laid_out_length : length tile_data = 19%nat.
Proof.
  destruct Hlay as (terrain & numbers & k & Hter & Hnum & Hk & ->).
  assert (length numbers = 18%nat) as Hlen.
  { destruct rp; by rewrite Hnum. }
  unfold list_insert_at.
  rewrite length_app, length_cons, length_take, length_drop,
    length_zip_with, length_fmap, Hlen, (Permutation_length Hter).
  change (length _terrain) with 18%nat. lia.
Qed.

Lemma laid_out_terrain : tile_data.*1 ≡ₚ TerD :: _terrain.
Proof.
  destruct Hlay as (terrain & numbers & k & Hter & Hnum & Hk & ->).
  assert (length numbers = 18%nat) as Hlen.
  { destruct rp; by rewrite Hnum. }
  unfold list_insert_at. rewrite fmap_app, fmap_cons.
  rewrite <- Permutation_middle. cbn [fst]. f_equiv.
  rewrite <- fmap_app, take_drop, fst_zip; [done|].
  rewrite length_fmap, Hlen, (Permutation_length Hter). done.
Qed.

Lemma laid_out_values :
  ∃ numbers k,
    (if rp then numbers ≡ₚ _numbers else numbers = _numbers)
    ∧ (k ≤ 18)%nat
    ∧ tile_data.*2
      = take k (Some <$> numbers) ++ None :: drop k (Some <$> numbers).
Proof.
  destruct Hlay as (terrain & numbers & k & Hter & Hnum & Hk & ->).
  assert (length numbers = 18%nat) as Hlen.
  { destruct rp; by rewrite Hnum. }
  exists numbers, k. split; [done|]. split; [done|].
  unfold list_insert_at. rewrite fmap_app, fmap_cons, fmap_take, fmap_drop.
  rewrite snd_zip; [done|].
  rewrite length_fmap, Hlen, (Permutation_length Hter). done.
Qed.

Lemma laid_out_values_of :
  ∃ numbers,
    (if rp then numbers ≡ₚ _numbers else numbers = _numbers)
    ∧ values_of (make_tiles tile_data) = numbers.
Proof.
  destruct laid_out_values as (numbers & k & Hnum & Hk & Hval).
  exists numbers. split; [done|].
  rewrite values_of_fmap, make_tiles_value, Hval.
  rewrite omap_id_insert_None. apply omap_id_Some.
Qed.
End laid_out.

(** ** The desert *)

Lemma filter_imap_nil {A B : Type} (P : B → Prop) `{!∀ x, Decision (P x)}
    (f : nat → A → B) (l : list A) :
  (∀ i y, y ∈ l → ¬ P (f i y)) → filter P (imap f l) = [].
Proof.
  revert f. induction l as [|x l IH]; intros f Hl; [done|].
  rewrite imap_cons, filter_cons_False by (apply Hl; left).
  apply IH. intros i y Hy. apply (Hl (S i)). by right.
Qed.

Lemma filter_imap_single {A B : Type} (P : B → Prop) `{!∀ x, Decision (P x)}
    (f : nat → A → B) (l1 l2 : list A) (x : A) :
  (∀ i y, y ∈ l1 ++ l2 → ¬ P (f i y)) →
  (∀ i, P (f i x)) →
  filter P (imap f (l1 ++ x :: l2)) = [f (length l1) x].
Proof.
  intros Hl Hx.
  rewrite imap_app, imap_cons, filter_app, filter_cons_True by apply Hx.
  rewrite !filter_imap_nil.
  - cbn. by rewrite Nat.add_0_r.
  - intros i y Hy. apply Hl. apply elem_of_app. by right.
  - intros i y Hy. apply Hl. apply elem_of_app. by left.
Qed.

Lemma pool_has_no_desert : TerD ∉ _terrain.
Proof. apply (bool_decide_unpack _). vm_compute. exact I. Qed.

Lemma laid_out_desert rp tile_data :
  laid_out rp tile_data →
  ∃ d, filter (λ t, Tile_terrain t = TerD) (make_tiles tile_data) = [d]
       ∧ filter (λ t, Tile_value t = None) (make_tiles tile_data) = [d].
Proof.
  intros (terrain & numbers & k & Hter & Hnum & Hk & ->).
  set (z := zip terrain (Some <$> numbers)).
  exists (mkTile (1 + Z.of_nat (length (take k z))) TerD None).
  rewrite make_tiles_imap. unfold list_insert_at.
  split.
  - rewrite (filter_imap_single (λ t, Tile_terrain t = TerD)); [done| |done].
    intros i [t v]. rewrite take_drop. intros Hin%elem_of_zip_l. cbn.
    intros ->. apply pool_has_no_desert. by rewrite <- Hter.
  - rewrite (filter_imap_single (λ t, Tile_value t = None)); [done| |done].
    intros i [t v]. rewrite take_drop. intros Hin%elem_of_zip_r. cbn.
    intros ->. by apply list_elem_of_fmap in Hin as (n & ? & _).
Qed.

(** ** The red check *)

Lemma _check_red_placement_true graph tile_data :
  _check_red_placement graph tile_data = Ok true →
  ∀ i1 i2 d p1 p2,
    (i1, i2, d) ∈ graph →
    getitem tile_data (i1 - 1) = Ok p1 →
    getitem tile_data (i2 - 1) = Ok p2 →
    ¬ (is_red p1.2 = true ∧ is_red p2.2 = true).
Proof.
  induction graph as [|[[j1 j2] dj] graph IH]; intros Hchk i1 i2 d p1 p2 Hin.
  { by apply elem_of_nil in Hin. }
  cbn [_check_red_placement] in Hchk.
  destruct (getitem tile_data (j1 - 1)) as [q1| |] eqn:Hq1; try done.
  destruct (getitem tile_data (j2 - 1)) as [q2| |] eqn:Hq2; try done.
  destruct (is_red q1.2 && is_red q2.2) eqn:Hred; [done|].
  apply elem_of_cons in Hin as [Heq|Hin].
  - injection Heq as -> -> ->. rewrite Hq1, Hq2. intros ? ? [H1 H2].
    simplify_eq. by rewrite H1, H2 in Hred.
  - exact (IH Hchk i1 i2 d p1 p2 Hin).
Qed.

Lemma hot_is_red t : hot t → is_red (Tile_value t) = true.
Proof. by intros [-> | ->]. Qed.

Lemma make_tiles_getitem tile_data t :
  t ∈ make_tiles tile_data →
  getitem tile_data (Tile_id t - 1) = Ok (Tile_terrain t, Tile_value t).
Proof.
  intros [Hid Hl]%make_tiles_elem.
  apply getitem_lookup in Hl. by rewrite Z2Nat.id in Hl by lia.
Qed.

Lemma check_red_free tile_data :
  _check_red_placement _graph tile_data = Ok true →
  red_free _graph (make_tiles tile_data).
Proof.
  intros Hchk i1 i2 d t1 t2 Hin Ht1 <- Ht2 <- [Hh1 Hh2].
  apply make_tiles_getitem in Ht1, Ht2.
  apply (_check_red_placement_true _ _ Hchk _ _ _ _ _ Hin Ht1 Ht2).
  split; by apply hot_is_red.
Qed.

(** ** Edges at a slot *)

Lemma _edges_for_at self tile :
  _edges_for self tile = edges_at (Board_graph self) (Tile_id tile).
Proof. reflexivity. Qed.

Lemma direction_at_ids self src dst :
  direction self src dst
  = direction_at (Board_graph self) (Tile_id src) (Tile_id dst).
Proof. reflexivity. Qed.

Lemma elem_of_edges_at graph s e :
  e ∈ edges_at graph s ↔
    (e ∈ graph ∧ edge_from e = s)
    ∨ (∃ e', e' ∈ graph ∧ edge_to e' = s ∧ e = invert e').
Proof.
  unfold edges_at. rewrite elem_of_app, list_elem_of_filter, list_elem_of_fmap.
  split.
  - intros [[? ?]|(e' & -> & [? ?]%list_elem_of_filter)]; [by left|].
    right. by exists e'.
  - intros [[? ?]|(e' & ? & ? & ->)]; [by left|].
    right. exists e'. by rewrite list_elem_of_filter.
Qed.

Lemma edges_at_from graph s e : e ∈ edges_at graph s → edge_from e = s.
Proof. intros [[_ ?]|(e' & _ & ? & ->)]%elem_of_edges_at; done. Qed.

Lemma adjacent_edges_at graph s n :
  adjacent graph s n ↔ n ∈ edge_to <$> edges_at graph s.
Proof.
  rewrite list_elem_of_fmap. split.
  - intros [d [Hin|Hin]].
    + exists (s, n, d). split; [done|]. apply elem_of_edges_at. by left.
    + exists (invert (n, s, d)). split; [done|]. apply elem_of_edges_at.
      right. by exists (n, s, d).
  - intros (e & -> & [[Hin <-]|(e' & Hin & <- & ->)]%elem_of_edges_at).
    + destruct e as [[a b] d]. exists d. by left.
    + destruct e' as [[a b] d]. exists d. by right.
Qed.

Lemma direction_at_not_adjacent graph a b :
  ¬ adjacent graph a b → direction_at graph a b = Raise StopIteration.
Proof.
  intros Hna. unfold direction_at.
  destruct (filter _ (edges_at graph a)) as [|e es] eqn:Hf; [done|].
  exfalso. apply Hna, adjacent_edges_at.
  assert (e ∈ filter (λ e, edge_to e = b) (edges_at graph a)) as He.
  { rewrite Hf. by left. }
  apply list_elem_of_filter in He as [<- He].
  by apply list_elem_of_fmap_2.
Qed.

(** ** The fixed graph, checked once *)

Lemma slots_covered : forallb slot_covered (seqZ 1 19) = true.
Proof. vm_compute. reflexivity. Qed.

Lemma edges_invertible : forallb edge_invertible _graph = true.
Proof. vm_compute. reflexivity. Qed.

Lemma path_steps : forallb path_step (seqZ 1 18) = true.
Proof. vm_compute. reflexivity. Qed.

Lemma forallb_elem_of {A : Type} (f : A → bool) (l : list A) (x : A) :
  forallb f l = true → x ∈ l → f x = true.
Proof.
  intros Hall Hin. rewrite forallb_forall in Hall.
  by apply Hall, list_elem_of_In.
Qed.

Lemma slot_covered_true s : 1 ≤ s ≤ 19 → slot_covered s = true.
Proof.
  intros Hs. apply (forallb_elem_of _ _ _ slots_covered).
  apply elem_of_seqZ. lia.
Qed.

Lemma consecutive_adjacent k : 1 ≤ k ≤ 18 → adjacent _graph k (k + 1).
Proof.
  intros Hk.
  assert (path_step k = true) as Hstep.
  { apply (forallb_elem_of _ _ _ path_steps). apply elem_of_seqZ. lia. }
  apply bool_decide_eq_true in Hstep.
  apply list_elem_of_fmap in Hstep as ([[a b] d] & Heq & Hin).
  cbn in Heq. injection Heq as -> ->. exists d. by left.
Qed.

Lemma direction_at_adjacent a b :
  adjacent _graph a b →
  ∃ d1 d2,
    direction_at _graph a b = Ok d1 ∧ direction_at _graph b a = Ok d2
    ∧ d2 = _direction_pairs d1 ∧ d1 = _direction_pairs d2.
Proof.
  intros [d [Hin|Hin]];
    pose proof (forallb_elem_of _ _ _ edges_invertible Hin) as Hinv;
    unfold edge_invertible in Hinv; cbn [edge_from edge_to fst snd] in Hinv.
  - destruct (direction_at _graph a b) as [d1| |]; try done.
    destruct (direction_at _graph b a) as [d2| |]; try done.
    apply andb_prop in Hinv as [[_ H2]%andb_prop H1].
    apply bool_decide_eq_true in H1, H2. by exists d1, d2.
  - destruct (direction_at _graph b a) as [d1| |]; try done.
    destruct (direction_at _graph a b) as [d2| |]; try done.
    apply andb_prop in Hinv as [[_ H2]%andb_prop H1].
    apply bool_decide_eq_true in H1, H2. by exists d2, d1.
Qed.

(** ** Boards returned by the constructor *)

Lemma Board_new_tiles fuel options g b :
  (Board_new fuel options g).1 = Ok b →
  ∃ rp rq tile_data,
    options !! "randomize_production"%string = Some rp
    ∧ options !! "randomize_ports"%string = Some rq
    ∧ laid_out rp tile_data
    ∧ Board_tiles b = make_tiles tile_data
    ∧ (rp = true → _check_red_placement _graph tile_data = Ok true)
    ∧ Board_graph b = _graph
    ∧ Board_tiles b !! 1%nat = Some (Board_center_tile b).
Proof.
  destruct (Board_new fuel options g) as [r s'] eqn:Hnew. cbn [fst].
  intros ->.
  apply Board_new_Ok in Hnew as (s1 & Hgen & Hc & Hg & _ & _).
  apply _generate_Ok in Hgen
    as (rp & rq & tile_data & Hrp & Hrq & Hlay & Htiles & Hchk & _).
  by exists rp, rq, tile_data.
Qed.

Lemma Board_new_ids fuel options g b :
  (Board_new fuel options g).1 = Ok b →
  Tile_id <$> Board_tiles b = seqZ 1 19.
Proof.
  intros (rp & rq & tile_data & _ & _ & Hlay & -> & _)%Board_new_tiles.
  by rewrite make_tiles_id, (laid_out_length _ _ Hlay).
Qed.

(** ** Running the loop body *)

Lemma bind_eq {A B : Type} (m : M A) (k : A → M B) s a s1 :
  m s = (Ok a, s1) → bind m k s = k a s1.
Proof. unfold bind. by intros ->. Qed.

Lemma bind_Raise {A B : Type} (m : M A) (k : A → M B) s e s1 :
  m s = (Raise e, s1) → bind m k s = (Raise e, s1).
Proof. unfold bind. by intros ->. Qed.

Lemma with_rng_eq {A : Type} (f : rng → A * rng) s :
  with_rng f s = (Ok (f (st_rng s)).1, mkState (f (st_rng s)).2 (st_ports s)).
Proof. unfold with_rng. by destruct (f (st_rng s)). Qed.

Lemma getopt_eq options key b s :
  options !! key = Some b → getopt options key s = (Ok b, s).
Proof. unfold getopt, lift. by intros ->. Qed.

Lemma getopt_missing options key s :
  options !! key = None → getopt options key s = (Raise (KeyError key), s).
Proof. unfold getopt, lift. by intros ->. Qed.

Lemma randrangeM_eq n s :
  randrangeM (S n) s
  = (Ok (_randbelow (S n) (st_rng s)).1,
     mkState (_randbelow (S n) (st_rng s)).2 (st_ports s)).
Proof.
  unfold randrangeM, randrange. by destruct (_randbelow (S n) (st_rng s)).
Qed.

Lemma _generate_body_fixed options s :
  options !! "randomize_production"%string = Some false →
  is_Some (options !! "randomize_ports"%string) →
  ∃ tiles s', _generate_body options s = (Ok (Some tiles), s').
Proof.
  intros Hrp [rq Hrq]. unfold _generate_body.
  rewrite (bind_eq _ _ _ _ _ (with_rng_eq _ _)).
  rewrite (bind_eq _ _ _ _ _ (getopt_eq _ _ _ _ Hrp)).
  rewrite (bind_eq (ret _numbers) _ _ _ _ eq_refl).
  rewrite (bind_eq _ _ _ _ _ (getopt_eq _ _ _ _ Hrq)).
  match goal with
  | |- context [bind (if rq then ?m1 else ?m2) ?k ?s0] =>
      assert (∃ ports s1, (if rq then m1 else m2) s0 = (Ok ports, s1))
        as (ports & s1 & Hports)
        by (destruct rq; [rewrite with_rng_eq|]; by eexists _, _);
      rewrite (bind_eq _ _ _ _ _ Hports)
  end.
  rewrite (bind_eq (set_ports _) _ _ _ _ eq_refl).
  rewrite Nat.add_1_r.
  rewrite (bind_eq _ _ _ _ _ (randrangeM_eq _ _)).
  rewrite (bind_eq _ _ _ _ _ (getopt_eq _ _ _ _ Hrp)).
  rewrite (bind_eq (ret false) _ _ _ _ eq_refl).
  by eexists _, _.
Qed.

(** * The claims *)

(** ** C1

    Claim C1: on every board that [Board(options)] returns when
    [randomize_production] is true, no edge of the fixed graph joins two
    tiles whose values are both 6 or 8. *)
Theorem red_adjacency_invariant fuel options g b :
  options !! "randomize_production"%string = Some true →
  (Board_new fuel options g).1 = Ok b →
  red_free _graph (Board_tiles b).
Proof.
  intros Hrp (rp & rq & tile_data & Hrp' & _ & _ & -> & Hchk & _)%Board_new_tiles.
  apply check_red_free, Hchk. congruence.
Qed.

Lemma red_adjacency_invariant_witness :
  red_free _graph (Board_tiles sample_random).
Proof.
  apply (red_adjacency_invariant 12 all_random rng0 sample_random).
  - vm_compute. reflexivity.
  - vm_compute. reflexivity.
Defined.

(** ** C2

    Claim C2 (the code at the default arguments): [center] defaults to 1,
    so [center or 10] is 1 and the centre tile of a generated board is
    [tiles[1]], the tile whose id is 2; slot 10 is not reached. *)
Theorem default_center_is_second_tile fuel options g b :
  (Board_new fuel options g).1 = Ok b →
  Board_tiles b !! 1%nat = Some (Board_center_tile b)
  ∧ Tile_id (Board_center_tile b) = 2.
Proof.
  intros Hnew. pose proof (Board_new_ids _ _ _ _ Hnew) as Hids.
  apply Board_new_tiles
    in Hnew as (rp & rq & tile_data & _ & _ & _ & _ & _ & _ & Hc).
  split; [done|].
  assert ((Tile_id <$> Board_tiles b) !! 1%nat
          = Some (Tile_id (Board_center_tile b))) as H1.
  { by rewrite list_lookup_fmap, Hc. }
  rewrite Hids in H1. apply lookup_seqZ in H1 as [-> _]. done.
Qed.

Lemma default_center_is_second_tile_witness :
  Board_tiles sample_fixed !! 1%nat = Some (Board_center_tile sample_fixed)
  ∧ Tile_id (Board_center_tile sample_fixed) = 2.
Proof.
  apply (default_center_is_second_tile 1 all_fixed rng0 sample_fixed).
  vm_compute. reflexivity.
Defined.

(** The fallback of [center or 10] is taken for [center=None] and
    [center=0] only, and then selects [tiles[10]], the tile with id 11. *)
Lemma center_fallback_index center :
  center = None ∨ center = Some 0 → center_or_10 center = 10.
Proof. by intros [-> | ->]. Qed.

Lemma center_fallback_sample :
  (Board_init 1 all_fixed None None None (mkState rng0 None)).1
  = Ok (mkBoard all_fixed (Board_tiles sample_fixed) (Board_ports sample_fixed)
          (mkTile 11 TerH (Some 4)) _graph).
Proof. vm_compute. reflexivity. Qed.

(** ** C3

    Claim C3, as amended: when [randomize_production] or
    [randomize_ports] is missing from the options, construction raises the
    [KeyError] of a missing key in the first pass of the loop; no board is
    returned and the [ports] attribute has not been set.  The call does
    leave a trace: the generator has made the draws of the shuffles that
    come before the failing lookup, 17 for the terrain and 17 more for
    the numbers when [randomize_production] is true. *)
Theorem missing_option_fails fuel options g :
  options !! "randomize_production"%string = None
  ∨ options !! "randomize_ports"%string = None →
  ∃ key s',
    Board_new (S fuel) options g = (Raise (KeyError key), s')
    ∧ options !! key = None
    ∧ (key = "randomize_production"%string ∨ key = "randomize_ports"%string)
    ∧ st_ports s' = None
    ∧ st_rng s'
      = mkRng (rng_tape g)
          (rng_pos g
           + match options !! "randomize_production"%string with
             | Some true => 34
             | _ => 17
             end).
Proof.
  intros Hmiss.
  set (s0 := mkState (shuffle _terrain g).2 None).
  assert (st_rng s0 = mkRng (rng_tape g) (rng_pos g + 17)) as Hs0.
  { subst s0. cbn [st_rng]. by rewrite shuffle_state. }
  assert (∃ key s',
            _generate_body options (mkState g None)
              = (Raise (KeyError key), s')
            ∧ options !! key = None
            ∧ (key = "randomize_production"%string
               ∨ key = "randomize_ports"%string)
            ∧ st_ports s' = None
            ∧ st_rng s'
              = mkRng (rng_tape g)
                  (rng_pos g
                   + match options !! "randomize_production"%string with
                     | Some true => 34
                     | _ => 17
                     end)) as (key & s' & Hbody & Hrest).
  { unfold _generate_body.
    rewrite (bind_eq _ _ _ _ _ (with_rng_eq _ _)).
    cbn [st_rng st_ports]. fold s0.
    destruct (options !! "randomize_production"%string) as [rp|] eqn:Hrp.
    - destruct Hmiss as [?|Hrq]; [done|].
      rewrite (bind_eq _ _ _ _ _ (getopt_eq _ _ _ _ Hrp)).
      destruct rp.
      + rewrite (bind_eq _ _ _ _ _ (with_rng_eq _ _)).
        rewrite (bind_Raise _ _ _ _ _ (getopt_missing _ _ _ Hrq)).
        eexists _, _. split; [reflexivity|]. split; [exact Hrq|].
        split; [by right|]. split; [reflexivity|].
        cbn [st_rng]. rewrite shuffle_state, Hs0. cbn [rng_tape rng_pos].
        f_equal. change (length _numbers - 1)%nat with 17%nat. lia.
      + rewrite (bind_eq (ret _numbers) _ _ _ _ eq_refl).
        rewrite (bind_Raise _ _ _ _ _ (getopt_missing _ _ _ Hrq)).
        eexists _, _. split; [reflexivity|]. split; [exact Hrq|].
        split; [by right|]. split; [reflexivity|exact Hs0].
    - rewrite (bind_Raise _ _ _ _ _ (getopt_missing _ _ _ Hrp)).
      eexists _, _. split; [reflexivity|]. split; [exact Hrp|].
      split; [by left|]. split; [reflexivity|exact Hs0]. }
  exists key, s'. split; [|exact Hrest].
  unfold Board_new, Board_init. apply bind_Raise.
  cbn [_generate]. by apply bind_Raise.
Qed.

Lemma missing_option_fails_witness :
  ∃ key s',
    Board_new 1 {[ "randomize_production"%string := true ]} rng0
      = (Raise (KeyError key), s')
    ∧ ({[ "randomize_production"%string := true ]} : gmap string bool) !! key
      = None
    ∧ (key = "randomize_production"%string ∨ key = "randomize_ports"%string)
    ∧ st_ports s' = None
    ∧ st_rng s'
      = mkRng (rng_tape rng0)
          (rng_pos rng0
           + match ({[ "randomize_production"%string := true ]}
                      : gmap string bool) !! "randomize_production"%string with
             | Some true => 34
             | _ => 17
             end).
Proof.
  apply (missing_option_fails 0 {[ "randomize_production"%string := true ]} rng0).
  right. vm_compute. reflexivity.
Defined.

(** The claim as first stated, that the failure leaves no state behind,
    does not hold: with [randomize_ports] missing and
    [randomize_production] true the call raises after both shuffles, and
    the generator it hands back stands 34 draws further on. *)
Lemma missing_option_advances_generator :
  Board_new 1 {[ "randomize_production"%string := true ]} rng0
  = (Raise (KeyError "randomize_ports"),
     mkState (mkRng (rng_tape rng0) 34) None)
  ∧ ¬ fails_without_trace 1 {[ "randomize_production"%string := true ]} rng0.
Proof.
  split; [vm_compute; reflexivity|].
  intros [key Hfail].
  apply (f_equal (λ r, rng_pos (st_rng r.2))) in Hfail.
  vm_compute in Hfail. discriminate Hfail.
Qed.

(** ** C4

    Claim C4: [direction(src, dst)] raises (the [StopIteration] of [next]
    on an empty generator) whenever [dst] is not a neighbour of [src] in
    the graph of the board. *)
Theorem direction_not_adjacent self src dst :
  ¬ adjacent (Board_graph self) (Tile_id src) (Tile_id dst) →
  direction self src dst = Raise StopIteration.
Proof.
  intros Hna. rewrite direction_at_ids. by apply direction_at_not_adjacent.
Qed.

Lemma direction_not_adjacent_witness :
  direction sample_fixed (mkTile 1 TerF (Some 5)) (mkTile 9 TerD None)
  = Raise StopIteration.
Proof.
  apply direction_not_adjacent.
  rewrite adjacent_edges_at. apply (bool_decide_unpack _).
  vm_compute. exact I.
Defined.

(** ** C5

    Claim C5: with both options false the constructor returns a board on
    its first pass; the non-[None] tile values, in board order, are
    [_numbers], and the terrain counts are F 4, P 4, H 4, M 3, C 3, D 1. *)
Theorem fixed_board_values_and_terrain fuel options g :
  options !! "randomize_production"%string = Some false →
  options !! "randomize_ports"%string = Some false →
  ∃ b s',
    Board_new (S fuel) options g = (Ok b, s')
    ∧ values_of (Board_tiles b) = _numbers
    ∧ terrain_count TerF (Board_tiles b) = 4%nat
    ∧ terrain_count TerP (Board_tiles b) = 4%nat
    ∧ terrain_count TerH (Board_tiles b) = 4%nat
    ∧ terrain_count TerM (Board_tiles b) = 3%nat
    ∧ terrain_count TerC (Board_tiles b) = 3%nat
    ∧ terrain_count TerD (Board_tiles b) = 1%nat.
Proof.
  intros Hrp Hrq.
  destruct (_generate_body_fixed options (mkState g None) Hrp)
    as (tiles & s1 & Hbody); [by eexists|].
  pose proof Hbody as Hinv.
  apply _generate_body_Ok
    in Hinv as (rp & rq & tile_data & Hrp' & _ & Hlay & _ & -> & _).
  assert (rp = false) as -> by congruence.
  destruct (make_tiles tile_data !! 1%nat) as [c|] eqn:Hc.
  2:{ apply lookup_ge_None in Hc.
      rewrite length_make_tiles, (laid_out_length _ _ Hlay) in Hc. lia. }
  eexists (mkBoard options (make_tiles tile_data) (st_ports s1) c _graph), s1.
  split.
  { assert (_generate (S fuel) options (mkState g None)
            = (Ok (make_tiles tile_data), s1)) as Hgen.
    { cbn [_generate]. by rewrite (bind_eq _ _ _ _ _ Hbody). }
    unfold Board_new, Board_init.
    rewrite (bind_eq _ _ _ _ _ Hgen).
    rewrite (bind_eq _ (λ center_tile, _) s1 c s1); [done|].
    unfold lift. f_equal. by apply (getitem_lookup _ 1). }
  cbn [Board_tiles]. split.
  { by destruct (laid_out_values_of _ _ Hlay) as (numbers & -> & ->). }
  assert (∀ x, terrain_count x (make_tiles tile_data)
               = length (filter (λ t, t = x) (TerD :: _terrain))) as Hcount.
  { intros x. rewrite <- (laid_out_terrain _ _ Hlay), <- make_tiles_terrain.
    unfold terrain_count. generalize (make_tiles tile_data). intros l.
    induction l as [|t l IH]; [done|].
    rewrite fmap_cons, !filter_cons. cbn.
    destruct (decide (Tile_terrain t = x)); cbn; by rewrite IH. }
  rewrite !Hcount. by vm_compute.
Qed.

Lemma fixed_board_values_and_terrain_witness :
  ∃ b s',
    Board_new 1 all_fixed rng0 = (Ok b, s')
    ∧ values_of (Board_tiles b) = _numbers
    ∧ terrain_count TerF (Board_tiles b) = 4%nat
    ∧ terrain_count TerP (Board_tiles b) = 4%nat
    ∧ terrain_count TerH (Board_tiles b) = 4%nat
    ∧ terrain_count TerM (Board_tiles b) = 3%nat
    ∧ terrain_count TerC (Board_tiles b) = 3%nat
    ∧ terrain_count TerD (Board_tiles b) = 1%nat.
Proof.
  apply (fixed_board_values_and_terrain 0 all_fixed rng0).
  - vm_compute. reflexivity.
  - vm_compute. reflexivity.
Defined.

(** ** C6

    Claim C6: on every board the constructor returns, whatever the
    options, the tile ids read 1, 2, ..., 19 in stored order, exactly one
    tile is desert, exactly one tile has value [None], and they are the
    same tile. *)
Theorem one_desert_and_ids fuel options g b :
  (Board_new fuel options g).1 = Ok b →
  Tile_id <$> Board_tiles b = seqZ 1 19
  ∧ ∃ d,
      filter (λ t, Tile_terrain t = TerD) (Board_tiles b) = [d]
      ∧ filter (λ t, Tile_value t = None) (Board_tiles b) = [d].
Proof.
  intros Hnew. split; [by apply Board_new_ids in Hnew|].
  apply Board_new_tiles
    in Hnew as (rp & rq & tile_data & _ & _ & Hlay & -> & _).
  by apply (laid_out_desert rp).
Qed.

Lemma one_desert_and_ids_witness :
  Tile_id <$> Board_tiles sample_random = seqZ 1 19
  ∧ ∃ d,
      filter (λ t, Tile_terrain t = TerD) (Board_tiles sample_random) = [d]
      ∧ filter (λ t, Tile_value t = None) (Board_tiles sample_random) = [d].
Proof.
  apply (one_desert_and_ids 12 all_random rng0 sample_random).
  vm_compute. reflexivity.
Defined.

(** ** C7

    Claim C7: on the fixed graph, when [b] is a neighbour of [a] both
    [direction(a, b)] and [direction(b, a)] return, each is the image of
    the other under [_direction_pairs], and the two make one of the pairs
    E and W, SE and NW, SW and NE, in either order. *)
Theorem direction_mutual_inverse self a b :
  Board_graph self = _graph →
  adjacent _graph (Tile_id a) (Tile_id b) →
  ∃ d1 d2,
    direction self a b = Ok d1 ∧ direction self b a = Ok d2
    ∧ d2 = _direction_pairs d1 ∧ d1 = _direction_pairs d2
    ∧ (d1, d2) ∈ [(DirE, DirW); (DirW, DirE);
                  (DirSE, DirNW); (DirNW, DirSE);
                  (DirSW, DirNE); (DirNE, DirSW)].
Proof.
  intros Hg Hadj. rewrite !direction_at_ids, Hg.
  destruct (direction_at_adjacent _ _ Hadj) as (d1 & d2 & H1 & H2 & Hd2 & Hd1).
  exists d1, d2. split; [exact H1|]. split; [exact H2|].
  split; [exact Hd2|]. split; [exact Hd1|]. subst d2.
  destruct d1; cbn [_direction_pairs];
    apply (bool_decide_unpack _); vm_compute; exact I.
Qed.

Lemma direction_mutual_inverse_witness :
  ∃ d1 d2,
    direction sample_fixed (mkTile 13 TerM (Some 10)) (mkTile 1 TerF (Some 5))
      = Ok d1
    ∧ direction sample_fixed (mkTile 1 TerF (Some 5)) (mkTile 13 TerM (Some 10))
      = Ok d2
    ∧ d2 = _direction_pairs d1 ∧ d1 = _direction_pairs d2
    ∧ (d1, d2) ∈ [(DirE, DirW); (DirW, DirE);
                  (DirSE, DirNW); (DirNW, DirSE);
                  (DirSW, DirNE); (DirNE, DirSW)].
Proof.
  apply direction_mutual_inverse.
  - vm_compute. reflexivity.
  - exists DirSE. right. apply (bool_decide_unpack _). vm_compute. exact I.
Defined.

(** ** C8

    Claim C8: for every slot of the fixed graph, the edges returned for it
    are pairwise distinct, each neighbour of the slot is the target of
    exactly one of them, and each of them leaves the slot for one of its
    neighbours. *)
Theorem edges_for_covers_neighbors self tile :
  Board_graph self = _graph →
  1 ≤ Tile_id tile ≤ 19 →
  NoDup (_edges_for self tile)
  ∧ (∀ n, adjacent _graph (Tile_id tile) n →
          length (filter (λ e, edge_to e = n) (_edges_for self tile)) = 1%nat)
  ∧ (∀ e, e ∈ _edges_for self tile →
          edge_from e = Tile_id tile
          ∧ adjacent _graph (Tile_id tile) (edge_to e)).
Proof.
  intros Hg Hs. rewrite _edges_for_at, Hg.
  apply slot_covered_true, andb_prop in Hs as [Hnd Hone].
  apply bool_decide_eq_true in Hnd. split; [done|]. split.
  - intros n Hn%adjacent_edges_at.
    apply (forallb_elem_of _ _ _ Hone) in Hn. by apply Nat.eqb_eq in Hn.
  - intros e He. split; [by apply edges_at_from in He|].
    apply adjacent_edges_at. by apply list_elem_of_fmap_2.
Qed.

Lemma edges_for_covers_neighbors_witness :
  NoDup (_edges_for sample_fixed (mkTile 19 TerF (Some 11)))
  ∧ (∀ n, adjacent _graph 19 n →
          length (filter (λ e, edge_to e = n)
                    (_edges_for sample_fixed (mkTile 19 TerF (Some 11))))
          = 1%nat)
  ∧ (∀ e, e ∈ _edges_for sample_fixed (mkTile 19 TerF (Some 11)) →
          edge_from e = 19 ∧ adjacent _graph 19 (edge_to e)).
Proof.
  apply (edges_for_covers_neighbors sample_fixed (mkTile 19 TerF (Some 11))).
  - vm_compute. reflexivity.
  - cbn. lia.
Defined.

(** ** C9

    Claim C9: the tiles of a returned board are stored with ids 1, 2, ...,
    19 in that order, and any two consecutive tiles sit on adjacent slots
    of the fixed graph, so [direction] between them returns. *)
Theorem traversal_is_connected_path fuel options g b :
  (Board_new fuel options g).1 = Ok b →
  Tile_id <$> Board_tiles b = seqZ 1 19
  ∧ ∀ i t t',
      Board_tiles b !! i = Some t →
      Board_tiles b !! S i = Some t' →
      Tile_id t' = Tile_id t + 1
      ∧ adjacent _graph (Tile_id t) (Tile_id t')
      ∧ ∃ d, direction b t t' = Ok d.
Proof.
  intros Hnew. pose proof (Board_new_ids _ _ _ _ Hnew) as Hids.
  split; [done|]. intros i t t' Ht Ht'.
  assert (Tile_id t = 1 + Z.of_nat i ∧ Tile_id t' = 1 + Z.of_nat (S i)
          ∧ Z.of_nat (S i) < 19) as (Hi & Hi' & Hlt).
  { assert ((Tile_id <$> Board_tiles b) !! i = Some (Tile_id t)) as H1
      by (by rewrite list_lookup_fmap, Ht).
    assert ((Tile_id <$> Board_tiles b) !! S i = Some (Tile_id t')) as H2
      by (by rewrite list_lookup_fmap, Ht').
    rewrite Hids in H1, H2.
    apply lookup_seqZ in H1 as [? ?], H2 as [? ?]. done. }
  assert (adjacent _graph (Tile_id t) (Tile_id t')) as Hadj.
  { replace (Tile_id t') with (Tile_id t + 1) by lia.
    apply consecutive_adjacent. lia. }
  split; [lia|]. split; [done|].
  apply Board_new_tiles
    in Hnew as (rp & rq & tile_data & _ & _ & _ & _ & _ & Hg & _).
  rewrite direction_at_ids, Hg.
  destruct (direction_at_adjacent _ _ Hadj) as (d1 & _ & -> & _).
  by exists d1.
Qed.

Lemma traversal_is_connected_path_witness :
  Tile_id <$> Board_tiles sample_fixed = seqZ 1 19
  ∧ ∀ i t t',
      Board_tiles sample_fixed !! i = Some t →
      Board_tiles sample_fixed !! S i = Some t' →
      Tile_id t' = Tile_id t + 1
      ∧ adjacent _graph (Tile_id t) (Tile_id t')
      ∧ ∃ d, direction sample_fixed t t' = Ok d.
Proof.
  apply (traversal_is_connected_path 1 all_fixed rng0 sample_fixed).
  vm_compute. reflexivity.
Defined.

(** ** C10

    Claim C10: on every board the constructor returns, whatever the
    options, the non-[None] tile values are a permutation of [_numbers]. *)
Theorem values_are_the_pool fuel options g b :
  (Board_new fuel options g).1 = Ok b →
  values_of (Board_tiles b) ≡ₚ _numbers.
Proof.
  intros (rp & rq & tile_data & _ & _ & Hlay & -> & _)%Board_new_tiles.
  destruct (laid_out_values_of _ _ Hlay) as (numbers & Hnum & ->).
  destruct rp; [done|by rewrite Hnum].
Qed.

Lemma values_are_the_pool_witness :
  values_of (Board_tiles sample_random) ≡ₚ _numbers.
Proof.
  apply (values_are_the_pool 12 all_random rng0 sample_random).
  vm_compute. reflexivity.
Defined.

(** * Further properties of the code *)

(** ** [invert] *)

(** Inverting an edge twice gives the edge back. *)
Theorem invert_involutive (e : Edge) : invert (invert e) = e.
Proof. by destruct e as [[a b] []]. Qed.

(** ** [_edges_for] on any graph *)

Lemma edges_at_invert graph a e :
  e ∈ edges_at graph a → invert e ∈ edges_at graph (edge_to e).
Proof.
  intros [[Hin Hfrom]|(e' & Hin & Hto & ->)]%elem_of_edges_at;
    apply elem_of_edges_at.
  - right. by exists e.
  - left. by rewrite invert_involutive.
Qed.

(** Whatever graph the board carries, an edge returned for a tile comes
    back inverted among the edges returned for the tile it leads to. *)
Theorem edges_for_symmetric self a b e :
  e ∈ _edges_for self a →
  edge_to e = Tile_id b →
  invert e ∈ _edges_for self b
  ∧ edge_to (invert e) = Tile_id a.
Proof.
  rewrite !_edges_for_at. intros He Hb. split.
  - rewrite <- Hb. by apply (edges_at_invert _ (Tile_id a)).
  - by apply edges_at_from in He.
Qed.

Lemma edges_for_symmetric_witness :
  invert (13, 1, DirNW)
    ∈ _edges_for sample_fixed (mkTile 1 TerF (Some 5))
  ∧ edge_to (invert (13, 1, DirNW)) = Tile_id (mkTile 13 TerM (Some 10)).
Proof.
  apply (edges_for_symmetric sample_fixed (mkTile 13 TerM (Some 10))
           (mkTile 1 TerF (Some 5)) (13, 1, DirNW)).
  - apply (bool_decide_unpack _). vm_compute. exact I.
  - reflexivity.
Defined.

(** ** [direction] *)

Lemma direction_at_Ok graph a b d :
  direction_at graph a b = Ok d →
  (a, b, d) ∈ graph ∨ (b, a, _direction_pairs d) ∈ graph.
Proof.
  unfold direction_at.
  destruct (filter _ (edges_at graph a)) as [|e es] eqn:Hf; [done|].
  intros [= <-].
  assert (e ∈ filter (λ e, edge_to e = b) (edges_at graph a)) as He.
  { rewrite Hf. by left. }
  apply list_elem_of_filter in He as [<- He].
  apply elem_of_edges_at in He as [[Hin <-]|(e' & Hin & <- & ->)].
  - left. by destruct e as [[? ?] ?].
  - right. destruct e' as [[x y] []]; exact Hin.
Qed.

(** On any graph, a direction that [direction] returns is backed by a
    stored edge: either the edge itself or the edge whose inverse it is. *)
Theorem direction_sound self src dst d :
  direction self src dst = Ok d →
  (Tile_id src, Tile_id dst, d) ∈ Board_graph self
  ∨ (Tile_id dst, Tile_id src, _direction_pairs d) ∈ Board_graph self.
Proof. rewrite direction_at_ids. apply direction_at_Ok. Qed.

Lemma direction_sound_witness :
  (Tile_id (mkTile 13 TerM (Some 10)), Tile_id (mkTile 1 TerF (Some 5)), DirNW)
    ∈ Board_graph sample_fixed
  ∨ (Tile_id (mkTile 1 TerF (Some 5)), Tile_id (mkTile 13 TerM (Some 10)),
     _direction_pairs DirNW) ∈ Board_graph sample_fixed.
Proof.
  apply (direction_sound sample_fixed (mkTile 13 TerM (Some 10))
           (mkTile 1 TerF (Some 5)) DirNW).
  vm_compute. reflexivity.
Defined.

Lemma _direction_pairs_involutive d :
  _direction_pairs (_direction_pairs d) = d.
Proof. by destruct d. Qed.

(** On the fixed graph [direction] returns [d] exactly when the graph
    stores the edge with direction [d], or the opposite edge with the
    inverse of [d]. *)
Theorem direction_complete self src dst d :
  Board_graph self = _graph →
  direction self src dst = Ok d
  ↔ ((Tile_id src, Tile_id dst, d) ∈ _graph
     ∨ (Tile_id dst, Tile_id src, _direction_pairs d) ∈ _graph).
Proof.
  intros Hg. rewrite direction_at_ids, Hg. split; [apply direction_at_Ok|].
  intros [Hin|Hin];
    pose proof (forallb_elem_of _ _ _ edges_invertible Hin) as Hinv;
    unfold edge_invertible in Hinv;
    cbn [edge_from edge_to edge_dir fst snd] in Hinv.
  - destruct (direction_at _graph (Tile_id src) (Tile_id dst)) as [d1| |];
      try done.
    destruct (direction_at _graph (Tile_id dst) (Tile_id src)) as [d2| |];
      try done.
    apply andb_prop in Hinv as [[H0 _]%andb_prop _].
    apply bool_decide_eq_true in H0. by subst.
  - destruct (direction_at _graph (Tile_id dst) (Tile_id src)) as [d1| |];
      try done.
    destruct (direction_at _graph (Tile_id src) (Tile_id dst)) as [d2| |];
      try done.
    apply andb_prop in Hinv as [[H0 H2]%andb_prop _].
    apply bool_decide_eq_true in H0, H2. subst.
    by rewrite _direction_pairs_involutive.
Qed.

Lemma direction_complete_witness :
  direction sample_fixed (mkTile 19 TerF (Some 11)) (mkTile 16 TerH (Some 5))
    = Ok DirSE
  ↔ ((Tile_id (mkTile 19 TerF (Some 11)), Tile_id (mkTile 16 TerH (Some 5)),
      DirSE) ∈ _graph
     ∨ (Tile_id (mkTile 16 TerH (Some 5)), Tile_id (mkTile 19 TerF (Some 11)),
        _direction_pairs DirSE) ∈ _graph).
Proof.
  apply (direction_complete sample_fixed). vm_compute. reflexivity.
Defined.

(** ** Tiles of a returned board *)

Lemma make_tiles_elem_lookup tile_data t :
  t ∈ make_tiles tile_data →
  ∃ n, make_tiles tile_data !! n = Some t ∧ Tile_id t = 1 + Z.of_nat n.
Proof.
  intros [n Hn]%list_elem_of_lookup. exists n. split; [done|].
  rewrite make_tiles_lookup in Hn.
  destruct (tile_data !! n) as [p|]; [|done]. cbn in Hn. by injection Hn as <-.
Qed.

Lemma tile_at_unique fuel options g b t :
  (Board_new fuel options g).1 = Ok b →
  t ∈ Board_tiles b →
  getitem (Board_tiles b) (Tile_id t - 1) = Ok t.
Proof.
  intros (rp & rq & tile_data & _ & _ & _ & -> & _)%Board_new_tiles.
  intros (n & Hn & ->)%make_tiles_elem_lookup.
  replace (1 + Z.of_nat n - 1) with (Z.of_nat n) by lia.
  by apply getitem_lookup.
Qed.

(** [board.tiles[t.id - 1]] is [t] for every tile of a returned board, the
    lookup that [neighbors_for] and the renderer rely on. *)
Theorem tile_by_id_roundtrip fuel options g b t :
  (Board_new fuel options g).1 = Ok b →
  t ∈ Board_tiles b →
  getitem (Board_tiles b) (Tile_id t - 1) = Ok t.
Proof. apply tile_at_unique. Qed.

Lemma tile_by_id_roundtrip_witness :
  getitem (Board_tiles sample_random) (Tile_id (mkTile 19 TerP (Some 5)) - 1)
  = Ok (mkTile 19 TerP (Some 5)).
Proof.
  apply (tile_by_id_roundtrip 12 all_random rng0 sample_random).
  - vm_compute. reflexivity.
  - apply (bool_decide_unpack _). vm_compute. exact I.
Defined.

(** Whatever the options, the terrains of a returned board are the
    eighteen of the pool and one desert, in some order. *)
Theorem terrain_is_the_pool fuel options g b :
  (Board_new fuel options g).1 = Ok b →
  Tile_terrain <$> Board_tiles b ≡ₚ TerD :: _terrain.
Proof.
  intros (rp & rq & tile_data & _ & _ & Hlay & -> & _)%Board_new_tiles.
  rewrite make_tiles_terrain. by apply (laid_out_terrain rp).
Qed.

Lemma terrain_is_the_pool_witness :
  Tile_terrain <$> Board_tiles sample_random ≡ₚ TerD :: _terrain.
Proof.
  apply (terrain_is_the_pool 12 all_random rng0 sample_random).
  vm_compute. reflexivity.
Defined.

(** ** [_check_red_placement] *)

Lemma is_red_hot t : is_red (Tile_value t) = true → hot t.
Proof.
  unfold hot. destruct (Tile_value t) as [n|]; [|done]. cbn.
  intros [->%Z.eqb_eq | ->%Z.eqb_eq]%orb_prop; [by left|by right].
Qed.

Lemma _check_red_placement_false graph tile_data :
  _check_red_placement graph tile_data = Ok false →
  ∃ i1 i2 d p1 p2,
    (i1, i2, d) ∈ graph
    ∧ getitem tile_data (i1 - 1) = Ok p1
    ∧ getitem tile_data (i2 - 1) = Ok p2
    ∧ is_red p1.2 = true ∧ is_red p2.2 = true.
Proof.
  induction graph as [|[[j1 j2] dj] graph IH]; [done|].
  cbn [_check_red_placement].
  destruct (getitem tile_data (j1 - 1)) as [q1| |] eqn:Hq1; try done.
  destruct (getitem tile_data (j2 - 1)) as [q2| |] eqn:Hq2; try done.
  destruct (is_red q1.2 && is_red q2.2) eqn:Hred.
  - intros _. apply andb_prop in Hred as [? ?].
    exists j1, j2, dj, q1, q2. split; [by left|done].
  - intros (i1 & i2 & d & p1 & p2 & Hin & ?)%IH.
    exists i1, i2, d, p1, p2. split; [by right|done].
Qed.

Lemma getitem_in_range {A : Type} (l : list A) (i : Z) :
  0 ≤ i < Z.of_nat (length l) → ∃ x, getitem l i = Ok x ∧ l !! Z.to_nat i = Some x.
Proof.
  intros Hi.
  destruct (lookup_lt_is_Some_2 l (Z.to_nat i)) as [x Hx]; [lia|].
  exists x. split; [|done].
  rewrite <- (Z2Nat.id i) by lia. by apply getitem_lookup.
Qed.

Lemma _check_red_placement_total graph tile_data :
  (∀ e, e ∈ graph →
        1 ≤ edge_from e ≤ Z.of_nat (length tile_data)
        ∧ 1 ≤ edge_to e ≤ Z.of_nat (length tile_data)) →
  ∃ ok, _check_red_placement graph tile_data = Ok ok.
Proof.
  induction graph as [|[[j1 j2] dj] graph IH]; intros Hr; [by exists true|].
  cbn [_check_red_placement].
  destruct (Hr (j1, j2, dj)) as [H1 H2]; [by left|].
  cbn [edge_from edge_to fst snd] in H1, H2.
  destruct (getitem_in_range tile_data (j1 - 1)) as (q1 & -> & _); [lia|].
  destruct (getitem_in_range tile_data (j2 - 1)) as (q2 & -> & _); [lia|].
  destruct (is_red q1.2 && is_red q2.2); [by exists false|].
  apply IH. intros e He. apply Hr. by right.
Qed.

Lemma edges_in_range : forallb edge_in_range _graph = true.
Proof. vm_compute. reflexivity. Qed.

Lemma _graph_in_range e :
  e ∈ _graph → 1 ≤ edge_from e ≤ 19 ∧ 1 ≤ edge_to e ≤ 19.
Proof.
  intros Hin%(forallb_elem_of _ _ _ edges_in_range). unfold edge_in_range in Hin.
  apply andb_prop in Hin as [[[?%Z.leb_le ?%Z.leb_le]%andb_prop ?%Z.leb_le]%andb_prop ?%Z.leb_le].
  lia.
Qed.

(** On nineteen laid-out pairs the check over the fixed graph never
    raises, and it answers [True] exactly when no edge joins two tiles
    valued 6 or 8. *)
Theorem check_red_placement_decides tile_data :
  length tile_data = 19%nat →
  ∃ ok,
    _check_red_placement _graph tile_data = Ok ok
    ∧ (ok = true ↔ red_free _graph (make_tiles tile_data)).
Proof.
  intros Hlen.
  destruct (_check_red_placement_total _graph tile_data) as [ok Hok].
  { intros e He. apply _graph_in_range in He. rewrite Hlen. lia. }
  exists ok. split; [done|]. split.
  - intros ->. by apply check_red_free.
  - intros Hfree. destruct ok; [done|]. exfalso.
    apply _check_red_placement_false
      in Hok as (i1 & i2 & d & [t1 v1] & [t2 v2] & Hin & H1 & H2 & Hr1 & Hr2).
    pose proof (_graph_in_range _ Hin) as [Hi1 Hi2].
    cbn [edge_from edge_to fst snd] in Hi1, Hi2.
    apply getitem_Ok in H1, H2.
    destruct (Z.ltb_spec (i1 - 1) 0); [lia|].
    destruct (Z.ltb_spec (i2 - 1) 0); [lia|].
    apply (Hfree i1 i2 d (mkTile i1 t1 v1) (mkTile i2 t2 v2) Hin).
    + apply list_elem_of_lookup. exists (Z.to_nat (i1 - 1)).
      rewrite make_tiles_lookup, H1. cbn. do 2 f_equal. lia.
    + done.
    + apply list_elem_of_lookup. exists (Z.to_nat (i2 - 1)).
      rewrite make_tiles_lookup, H2. cbn. do 2 f_equal. lia.
    + done.
    + split; by apply is_red_hot.
Qed.

Lemma check_red_placement_decides_witness :
  ∃ ok,
    _check_red_placement _graph
      (zip (replicate 19 TerF) (fixed_values 0)) = Ok ok
    ∧ (ok = true
       ↔ red_free _graph
           (make_tiles (zip (replicate 19 TerF) (fixed_values 0)))).
Proof.
  apply check_red_placement_decides. vm_compute. reflexivity.
Defined.

Lemma getitem_nil {A : Type} (i : Z) : getitem (@nil A) i = Raise IndexError.
Proof.
  unfold getitem. cbn [length]. cbv zeta.
  destruct (_ && _) eqn:Hc; [|done].
  apply andb_prop in Hc as [?%Z.leb_le ?%Z.ltb_lt].
  destruct (Z.ltb_spec i 0); lia.
Qed.

(** With no tiles at all, the check raises [IndexError] at the first edge
    of any graph that has one. *)
Theorem check_red_placement_no_tiles graph :
  graph ≠ [] → _check_red_placement graph [] = Raise IndexError.
Proof.
  destruct graph as [|[[i1 i2] d] graph]; [done|]. intros _.
  cbn [_check_red_placement]. by rewrite getitem_nil.
Qed.

Lemma check_red_placement_no_tiles_witness :
  _check_red_placement _graph [] = Raise IndexError.
Proof. apply check_red_placement_no_tiles. discriminate. Defined.

(** ** One pass of the loop, in closed form *)

Lemma _generate_body_run options rp rq s :
  options !! "randomize_production"%string = Some rp →
  options !! "randomize_ports"%string = Some rq →
  _generate_body options s
  = let p := draw_pass rp rq (st_rng s) in
    if rp then
      match _check_red_placement _graph (pass_tile_data p) with
      | Ok ok =>
          (Ok (if ok then Some (make_tiles (pass_tile_data p)) else None),
           pass_state p)
      | Raise e => (Raise e, pass_state p)
      | Diverge => (Diverge, pass_state p)
      end
    else (Ok (Some (make_tiles (pass_tile_data p))), pass_state p).
Proof.
  intros Hrp Hrq. unfold _generate_body.
  rewrite (bind_eq _ _ _ _ _ (with_rng_eq _ _)).
  rewrite (bind_eq _ _ _ _ _ (getopt_eq _ _ _ _ Hrp)).
  set (t := shuffle _terrain (st_rng s)).
  set (s1 := mkState t.2 (st_ports s)).
  set (n := if rp then shuffle _numbers t.2 else (_numbers, t.2)).
  rewrite (bind_eq _ _ s1 n.1 (mkState n.2 (st_ports s))).
  2:{ subst n s1. destruct rp; [by rewrite with_rng_eq|done]. }
  rewrite (bind_eq _ _ _ _ _ (getopt_eq _ _ _ _ Hrq)).
  set (p := if rq then shuffle _ports n.2 else (_ports, n.2)).
  rewrite (bind_eq _ _ _ p.1 (mkState p.2 (st_ports s))).
  2:{ subst p. destruct rq; [by rewrite with_rng_eq|done]. }
  rewrite (bind_eq (set_ports _) _ _ _ _ eq_refl).
  rewrite Nat.add_1_r.
  rewrite (bind_eq _ _ _ _ _ (randrangeM_eq _ _)).
  rewrite (bind_eq _ _ _ _ _ (getopt_eq _ _ _ _ Hrp)).
  cbn [st_rng st_ports].
  change (draw_pass rp rq (st_rng s))
    with (mkPass t.1 n.1 p.1
            (_randbelow (S (length (zip t.1 (Some <$> n.1)))) p.2).1
            (_randbelow (S (length (zip t.1 (Some <$> n.1)))) p.2).2).
  cbv zeta. unfold pass_tile_data, pass_state, pass_port_list.
  cbn [pass_terrain pass_numbers pass_ports pass_desert pass_rng].
  destruct rp.
  - unfold bind at 1. unfold bind at 1. unfold lift.
    destruct (_check_red_placement _graph _) as [[]| |]; done.
  - by rewrite (bind_eq (ret false) _ _ _ _ eq_refl).
Qed.

Section pass.
Context (rp rq : bool) (g : rng).

Lemma pass_terrain_perm : pass_terrain (draw_pass rp rq g) ≡ₚ _terrain.
Proof. apply shuffle_Permutation. Qed.

Lemma pass_numbers_perm :
  if rp then pass_numbers (draw_pass rp rq g) ≡ₚ _numbers
  else pass_numbers (draw_pass rp rq g) = _numbers.
Proof. unfold draw_pass. destruct rp; [apply shuffle_Permutation|done]. Qed.

Lemma pass_ports_perm :
  if rq then pass_ports (draw_pass rp rq g) ≡ₚ _ports
  else pass_ports (draw_pass rp rq g) = _ports.
Proof. unfold draw_pass. destruct rq; [apply shuffle_Permutation|done]. Qed.

Lemma pass_numbers_length : length (pass_numbers (draw_pass rp rq g)) = 18%nat.
Proof. pose proof pass_numbers_perm as H. destruct rp; by rewrite H. Qed.

Lemma pass_zip_length :
  length (zip (pass_terrain (draw_pass rp rq g))
            (Some <$> pass_numbers (draw_pass rp rq g))) = 18%nat.
Proof.
  rewrite length_zip_with, length_fmap, pass_numbers_length,
    (Permutation_length pass_terrain_perm). done.
Qed.

Lemma pass_desert_lt :
  (pass_desert (draw_pass rp rq g)
   < S (length (zip (pass_terrain (draw_pass rp rq g))
                  (Some <$> pass_numbers (draw_pass rp rq g)))))%nat.
Proof.
  unfold draw_pass. cbn [pass_desert pass_terrain pass_numbers].
  apply _randbelow_lt. lia.
Qed.

Lemma pass_desert_le : (pass_desert (draw_pass rp rq g) ≤ 18)%nat.
Proof. pose proof pass_desert_lt as H. rewrite pass_zip_length in H. lia. Qed.

Lemma pass_laid_out : laid_out rp (pass_tile_data (draw_pass rp rq g)).
Proof.
  exists (pass_terrain (draw_pass rp rq g)),
    (pass_numbers (draw_pass rp rq g)), (pass_desert (draw_pass rp rq g)).
  split; [apply pass_terrain_perm|]. split; [apply pass_numbers_perm|].
  split; [apply pass_desert_le|done].
Qed.

Lemma pass_check_total :
  ∃ ok, _check_red_placement _graph (pass_tile_data (draw_pass rp rq g)) = Ok ok.
Proof.
  apply _check_red_placement_total. intros e He.
  apply _graph_in_range in He.
  rewrite (laid_out_length _ _ pass_laid_out). lia.
Qed.
End pass.

Lemma _generate_body_total options s :
  is_Some (options !! "randomize_production"%string) →
  is_Some (options !! "randomize_ports"%string) →
  ∃ r s', _generate_body options s = (Ok r, s').
Proof.
  intros [rp Hrp] [rq Hrq]. rewrite (_generate_body_run _ _ _ _ Hrp Hrq).
  cbv zeta. destruct rp; [|by eexists _, _].
  destruct (pass_check_total true rq (st_rng s)) as [ok ->]. by eexists _, _.
Qed.

Lemma _generate_no_Raise fuel options s e s' :
  is_Some (options !! "randomize_production"%string) →
  is_Some (options !! "randomize_ports"%string) →
  _generate fuel options s ≠ (Raise e, s').
Proof.
  intros Hrp Hrq. revert s. induction fuel as [|fuel IH]; intros s; [done|].
  cbn [_generate].
  destruct (_generate_body_total options s Hrp Hrq) as (r & s1 & Hbody).
  rewrite (bind_eq _ _ _ _ _ Hbody). destruct r as [tiles|]; [done|apply IH].
Qed.

(** ** What the constructor never does *)

Lemma Board_new_no_Raise fuel options g e :
  is_Some (options !! "randomize_production"%string) →
  is_Some (options !! "randomize_ports"%string) →
  (Board_new fuel options g).1 ≠ Raise e.
Proof.
  intros Hrp Hrq. unfold Board_new, Board_init.
  destruct (_generate fuel options (mkState g None)) as [[tiles| e' |] s1] eqn:Hgen.
  - rewrite (bind_eq _ _ _ _ _ Hgen).
    apply _generate_Ok in Hgen as (rp & rq & td & _ & _ & Hlay & -> & _).
    destruct (make_tiles td !! 1%nat) as [c|] eqn:Hc.
    + rewrite (bind_eq _ (λ center_tile, _) s1 c s1); [done|].
      unfold lift. f_equal. by apply (getitem_lookup _ 1).
    + apply lookup_ge_None in Hc.
      rewrite length_make_tiles, (laid_out_length _ _ Hlay) in Hc. lia.
  - by apply _generate_no_Raise in Hgen.
  - unfold bind at 1. by rewrite Hgen.
Qed.

(** When the options hold both keys, [Board(options)] raises nothing: it
    returns a board, or the loop is still running when the fuel ends. *)
Theorem generation_never_raises fuel options g e :
  is_Some (options !! "randomize_production"%string) →
  is_Some (options !! "randomize_ports"%string) →
  (Board_new fuel options g).1 ≠ Raise e.
Proof.
  apply Board_new_no_Raise.
Qed.

Lemma generation_never_raises_witness :
  (Board_new 3 all_random rng0).1 ≠ Raise IndexError.
Proof.
  apply generation_never_raises.
  - eexists. vm_compute. reflexivity.
  - eexists. vm_compute. reflexivity.
Defined.

(** ** The pass that a returned board comes from *)

Lemma _generate_Ok_pass fuel options rp rq s tiles s' :
  options !! "randomize_production"%string = Some rp →
  options !! "randomize_ports"%string = Some rq →
  _generate fuel options s = (Ok tiles, s') →
  ∃ g',
    tiles = make_tiles (pass_tile_data (draw_pass rp rq g'))
    ∧ s' = pass_state (draw_pass rp rq g').
Proof.
  intros Hrp Hrq. revert s. induction fuel as [|fuel IH]; intros s; [done|].
  cbn [_generate]. intros H.
  apply bind_Ok in H as (r & s1 & Hbody & H).
  destruct r as [tiles'|]; [|by apply IH in H].
  apply ret_Ok in H as [-> ->]. exists (st_rng s).
  rewrite (_generate_body_run _ _ _ _ Hrp Hrq) in Hbody. cbv zeta in Hbody.
  revert Hbody. generalize (draw_pass rp rq (st_rng s)). intros p.
  generalize (_check_red_placement _graph (pass_tile_data p)).
  generalize (make_tiles (pass_tile_data p)). generalize (pass_state p).
  intros sp tp chk Hbody.
  destruct rp; [destruct chk as [[]| |]|];
    first [discriminate Hbody | by injection Hbody as <- <-].
Qed.

Lemma Board_new_Ok_state fuel options g b s' :
  Board_new fuel options g = (Ok b, s') →
  _generate fuel options (mkState g None) = (Ok (Board_tiles b), s')
  ∧ Board_ports b = st_ports s'.
Proof.
  unfold Board_new, Board_init. intros H.
  apply bind_Ok in H as (tiles & s1 & Hgen & H).
  apply bind_Ok in H as (center & s2 & [Hc ->]%lift_Ok & H).
  apply bind_Ok in H as (ports & s3 & Hp & H).
  unfold get_ports in Hp. apply ret_Ok in H as [-> ->].
  injection Hp as <- <-. by cbn.
Qed.

Lemma Board_new_pass fuel options rp rq g b :
  options !! "randomize_production"%string = Some rp →
  options !! "randomize_ports"%string = Some rq →
  (Board_new fuel options g).1 = Ok b →
  ∃ g',
    Board_tiles b = make_tiles (pass_tile_data (draw_pass rp rq g'))
    ∧ Board_ports b = Some (pass_port_list (draw_pass rp rq g')).
Proof.
  intros Hrp Hrq.
  destruct (Board_new fuel options g) as [r s'] eqn:Hnew. cbn [fst].
  intros ->. apply Board_new_Ok_state in Hnew as [Hgen Hports].
  apply (_generate_Ok_pass _ _ _ _ _ _ _ Hrp Hrq) in Hgen as (g' & Ht & Hs).
  exists g'. split; [exact Ht|]. rewrite Hports, Hs. reflexivity.
Qed.

(** ** Ports *)

Lemma Board_new_ports fuel options rq g b :
  options !! "randomize_ports"%string = Some rq →
  (Board_new fuel options g).1 = Ok b →
  ∃ ports,
    Board_ports b = Some ports
    ∧ port_location <$> ports = _port_locations
    ∧ port_kind <$> ports ≡ₚ _ports
    ∧ (rq = false → port_kind <$> ports = _ports).
Proof.
  intros Hrq Hnew.
  destruct (Board_new_tiles _ _ _ _ Hnew) as (rp & rq' & _ & Hrp & _).
  destruct (Board_new_pass _ _ _ _ _ _ Hrp Hrq Hnew) as (g' & _ & Hports).
  exists (pass_port_list (draw_pass rp rq g')). split; [done|].
  pose proof (pass_ports_perm rp rq g') as Hperm.
  set (kinds := pass_ports (draw_pass rp rq g')) in *.
  assert (length kinds = 9%nat) as Hlen.
  { destruct rq; by rewrite Hperm. }
  assert (port_location <$> pass_port_list (draw_pass rp rq g') = _port_locations
          ∧ port_kind <$> pass_port_list (draw_pass rp rq g') = kinds)
    as [Hloc Hkind].
  { unfold pass_port_list. fold kinds. rewrite <- !list_fmap_compose. split.
    - rewrite <- (fst_zip _port_locations kinds) at 2 by (rewrite Hlen; done).
      apply list_fmap_ext. by intros i [[tile dir] value] _.
    - rewrite <- (snd_zip _port_locations kinds) at 2 by (rewrite Hlen; done).
      apply list_fmap_ext. by intros i [[tile dir] value] _. }
  rewrite Hloc, Hkind. split; [done|]. split.
  - destruct rq; [done|by rewrite Hperm].
  - by intros ->.
Qed.

(** A returned board has nine ports, at the nine fixed locations in their
    stored order; their kinds are a permutation of the port pool, and the
    pool itself when [randomize_ports] is false. *)
Theorem ports_of_a_board fuel options rq g b :
  options !! "randomize_ports"%string = Some rq →
  (Board_new fuel options g).1 = Ok b →
  ∃ ports,
    Board_ports b = Some ports
    ∧ port_location <$> ports = _port_locations
    ∧ port_kind <$> ports ≡ₚ _ports
    ∧ (rq = false → port_kind <$> ports = _ports).
Proof.
  apply Board_new_ports.
Qed.

Lemma ports_of_a_board_witness :
  ∃ ports,
    Board_ports sample_random = Some ports
    ∧ port_location <$> ports = _port_locations
    ∧ port_kind <$> ports ≡ₚ _ports
    ∧ (true = false → port_kind <$> ports = _ports).
Proof.
  apply (ports_of_a_board 12 all_random true rng0 sample_random).
  - vm_compute. reflexivity.
  - vm_compute. reflexivity.
Defined.

(** ** The unshuffled numbers *)

Lemma values_red_free_sound tile_data :
  values_red_free (tile_data.*2) = true →
  red_free _graph (make_tiles tile_data).
Proof.
  intros Hv i1 i2 d t1 t2 Hin Ht1 <- Ht2 <- [Hh1 Hh2].
  apply (forallb_elem_of _ _ _ Hv) in Hin.
  cbn [edge_from edge_to fst snd] in Hin.
  apply make_tiles_elem in Ht1 as [_ Ht1], Ht2 as [_ Ht2].
  rewrite !list_lookup_fmap, Ht1, Ht2 in Hin. cbn in Hin.
  by rewrite (hot_is_red _ Hh1), (hot_is_red _ Hh2) in Hin.
Qed.

Lemma fixed_values_red_free :
  forallb (λ k, values_red_free (fixed_values k)) (seq 0 19) = true.
Proof. vm_compute. reflexivity. Qed.

Lemma laid_out_fixed_red_free tile_data :
  laid_out false tile_data → red_free _graph (make_tiles tile_data).
Proof.
  intros Hlay. apply values_red_free_sound.
  destruct (laid_out_values _ _ Hlay) as (numbers & k & -> & Hk & ->).
  apply (forallb_elem_of _ _ k fixed_values_red_free).
  apply elem_of_seq. lia.
Qed.

(** With [randomize_production] false the red check is skipped, the
    constructor returns on its first pass, and the board is free of red
    adjacency all the same: the unshuffled numbers keep 6 and 8 apart
    wherever the desert lands. *)
Theorem fixed_numbers_red_free fuel options g :
  options !! "randomize_production"%string = Some false →
  is_Some (options !! "randomize_ports"%string) →
  ∃ b s',
    Board_new (S fuel) options g = (Ok b, s')
    ∧ values_of (Board_tiles b) = _numbers
    ∧ red_free _graph (Board_tiles b).
Proof.
  intros Hrp Hrq.
  destruct (_generate_body_fixed options (mkState g None) Hrp Hrq)
    as (tiles & s1 & Hbody).
  pose proof Hbody as Hinv.
  apply _generate_body_Ok
    in Hinv as (rp & rq & tile_data & Hrp' & _ & Hlay & _ & -> & _).
  assert (rp = false) as -> by congruence.
  destruct (make_tiles tile_data !! 1%nat) as [c|] eqn:Hc.
  2:{ apply lookup_ge_None in Hc.
      rewrite length_make_tiles, (laid_out_length _ _ Hlay) in Hc. lia. }
  eexists (mkBoard options (make_tiles tile_data) (st_ports s1) c _graph), s1.
  split; [|split].
  - assert (_generate (S fuel) options (mkState g None)
            = (Ok (make_tiles tile_data), s1)) as Hgen.
    { cbn [_generate]. by rewrite (bind_eq _ _ _ _ _ Hbody). }
    unfold Board_new, Board_init.
    rewrite (bind_eq _ _ _ _ _ Hgen).
    rewrite (bind_eq _ (λ center_tile, _) s1 c s1); [done|].
    unfold lift. f_equal. by apply (getitem_lookup _ 1).
  - cbn [Board_tiles].
    by destruct (laid_out_values_of _ _ Hlay) as (numbers & -> & ->).
  - by apply laid_out_fixed_red_free.
Qed.

Lemma fixed_numbers_red_free_witness :
  ∃ b s',
    Board_new 1 {[ "randomize_production"%string := false;
                   "randomize_ports"%string := true ]} rng0 = (Ok b, s')
    ∧ values_of (Board_tiles b) = _numbers
    ∧ red_free _graph (Board_tiles b).
Proof.
  apply (fixed_numbers_red_free 0).
  - vm_compute. reflexivity.
  - eexists. vm_compute. reflexivity.
Defined.

(** ** Where the desert lands *)

Lemma shuffle_from_tape {A : Type} (i : nat) (x : list A) (g : rng) :
  rng_tape (shuffle_from i x g).2 = rng_tape g.
Proof.
  revert x g. induction i as [|i IH]; intros x g; [done|].
  cbn [shuffle_from].
  destruct (_randbelow (S (S i)) g) as [j g'] eqn:Hj.
  rewrite IH. unfold _randbelow in Hj. by injection Hj as _ <-.
Qed.

Lemma shuffle_tape {A : Type} (x : list A) (g : rng) :
  rng_tape (shuffle x g).2 = rng_tape g.
Proof. apply shuffle_from_tape. Qed.

Lemma shuffle_spec {A : Type} (x : list A) (g : rng) :
  ∃ y g', shuffle x g = (y, g') ∧ y ≡ₚ x ∧ rng_tape g' = rng_tape g.
Proof.
  pose proof (shuffle_Permutation x g) as Hperm.
  pose proof (shuffle_tape x g) as Htape.
  destruct (shuffle x g) as [y g']. by exists y, g'.
Qed.

Lemma shuffle_if_spec {A : Type} (flag : bool) (x : list A) (g : rng) :
  ∃ y g',
    (if flag then shuffle x g else (x, g)) = (y, g')
    ∧ length y = length x ∧ rng_tape g' = rng_tape g.
Proof.
  destruct flag; [|by exists x, g].
  destruct (shuffle_spec x g) as (y & g' & -> & Hperm & Htape).
  exists y, g'. split; [done|]. split; [by apply Permutation_length|done].
Qed.

Lemma pass_desert_tape rp rq g :
  ∃ pos, pass_desert (draw_pass rp rq g) = (rng_tape g pos mod 19)%nat.
Proof.
  unfold draw_pass.
  destruct (shuffle_spec _terrain g) as (t & g1 & -> & Ht & Hg1).
  cbn [fst snd].
  destruct (shuffle_if_spec rp _numbers g1) as (n & g2 & -> & Hn & Hg2).
  cbn [fst snd].
  destruct (shuffle_if_spec rq _ports g2) as (p & g3 & -> & Hp & Hg3).
  cbn [fst snd pass_desert]. unfold _randbelow. cbn [fst].
  rewrite length_zip_with, length_fmap, Hn, (Permutation_length Ht).
  exists (rng_pos g3). rewrite Hg3, Hg2, Hg1. reflexivity.
Qed.

Lemma pass_desert_constant_tape rq k pos :
  (k < 19)%nat →
  pass_desert (draw_pass false rq (mkRng (λ _, k) pos)) = k.
Proof.
  intros Hk.
  destruct (pass_desert_tape false rq (mkRng (λ _, k) pos)) as [pos' ->].
  cbn [rng_tape]. by apply Nat.mod_small.
Qed.

Lemma make_tiles_desert_at k z :
  (k ≤ length z)%nat →
  make_tiles (list_insert_at k (TerD, None) z) !! k
  = Some (mkTile (1 + Z.of_nat k) TerD None).
Proof.
  intros Hk. rewrite make_tiles_lookup. unfold list_insert_at.
  rewrite lookup_app_r by (rewrite length_take; lia).
  rewrite length_take, Nat.min_l, Nat.sub_diag by lia. done.
Qed.

Lemma Board_new_first_pass fuel options rq g :
  options !! "randomize_production"%string = Some false →
  options !! "randomize_ports"%string = Some rq →
  ∃ b, (Board_new (S fuel) options g).1 = Ok b
       ∧ Board_tiles b
         = make_tiles (pass_tile_data (draw_pass false rq g)).
Proof.
  intros Hrp Hrq.
  set (p := draw_pass false rq g).
  assert (_generate (S fuel) options (mkState g None)
          = (Ok (make_tiles (pass_tile_data p)), pass_state p)) as Hgen.
  { cbn [_generate].
    rewrite (bind_eq _ _ _ (Some (make_tiles (pass_tile_data p))) (pass_state p));
      [done|].
    by rewrite (_generate_body_run _ _ _ _ Hrp Hrq). }
  assert (length (make_tiles (pass_tile_data p)) = 19%nat) as Hlen.
  { rewrite length_make_tiles. apply (laid_out_length false), pass_laid_out. }
  destruct (make_tiles (pass_tile_data p) !! 1%nat) as [c|] eqn:Hc.
  2:{ apply lookup_ge_None in Hc. rewrite Hlen in Hc. lia. }
  eexists (mkBoard options (make_tiles (pass_tile_data p))
             (st_ports (pass_state p)) c _graph).
  split; [|done].
  unfold Board_new, Board_init.
  rewrite (bind_eq _ _ _ _ _ Hgen).
  rewrite (bind_eq _ (λ center_tile, _) _ c (pass_state p)); [done|].
  unfold lift. f_equal. by apply (getitem_lookup _ 1).
Qed.

(** With [randomize_production] false every slot can receive the desert:
    for each of the nineteen slots some run of the generator returns a
    board whose desert, with value [None], sits on that slot. *)
Theorem desert_reaches_every_slot options slot :
  options !! "randomize_production"%string = Some false →
  is_Some (options !! "randomize_ports"%string) →
  1 ≤ slot ≤ 19 →
  ∃ g b,
    (Board_new 1 options g).1 = Ok b
    ∧ mkTile slot TerD None ∈ Board_tiles b.
Proof.
  intros Hrp [rq Hrq] Hslot.
  set (k := Z.to_nat (slot - 1)).
  exists (mkRng (λ _, k) 0).
  destruct (Board_new_first_pass 0 options rq (mkRng (λ _, k) 0) Hrp Hrq)
    as (b & Hb & Htiles).
  exists b. split; [done|]. rewrite Htiles.
  apply list_elem_of_lookup. exists k. unfold pass_tile_data.
  rewrite pass_desert_constant_tape by lia.
  rewrite make_tiles_desert_at.
  - do 2 f_equal. lia.
  - unfold k.
    rewrite (pass_zip_length false rq). lia.
Qed.

Lemma desert_reaches_every_slot_witness :
  ∃ g b,
    (Board_new 1 all_fixed g).1 = Ok b
    ∧ mkTile 19 TerD None ∈ Board_tiles b.
Proof.
  apply (desert_reaches_every_slot all_fixed 19).
  - vm_compute. reflexivity.
  - eexists. vm_compute. reflexivity.
  - lia.
Defined.

(** ** [neighbors_for] *)

Lemma neighbors_for_Ok self tile ts :
  neighbors_for self tile = Ok ts →
  Forall2 (λ e t, getitem (Board_tiles self) (edge_to e - 1) = Ok t)
    (_edges_for self tile) ts.
Proof.
  unfold neighbors_for. generalize (_edges_for self tile). intros es.
  revert ts. induction es as [|e es IH]; intros ts; cbn [foldr].
  - intros [= <-]. constructor.
  - destruct (getitem (Board_tiles self) (edge_to e - 1)) as [t| |] eqn:Ht;
      [|done..].
    destruct (foldr _ _ es) as [ts'| |]; [|done..].
    intros [= <-]. constructor; [done|]. by apply IH.
Qed.

Lemma neighbors_for_run self tile (f : Edge → Tile) :
  (∀ e, e ∈ _edges_for self tile →
        getitem (Board_tiles self) (edge_to e - 1) = Ok (f e)) →
  neighbors_for self tile = Ok (f <$> _edges_for self tile).
Proof.
  unfold neighbors_for. generalize (_edges_for self tile). intros es.
  induction es as [|e es IH]; intros Hf; cbn [foldr]; [done|].
  rewrite (Hf e) by by left.
  rewrite IH; [done|]. intros e' He'. apply Hf. by right.
Qed.

Lemma degrees_in_range : forallb degree_in_range (seqZ 1 19) = true.
Proof. vm_compute. reflexivity. Qed.

Lemma Board_new_tile_id fuel options g b t :
  (Board_new fuel options g).1 = Ok b →
  t ∈ Board_tiles b → 1 ≤ Tile_id t ≤ 19.
Proof.
  intros Hids%Board_new_ids Ht.
  assert (Tile_id t ∈ Tile_id <$> Board_tiles b) as Hin
    by by apply list_elem_of_fmap_2.
  rewrite Hids in Hin. apply elem_of_seqZ in Hin. lia.
Qed.

Lemma Board_new_tile_at fuel options g b i :
  (Board_new fuel options g).1 = Ok b →
  1 ≤ i ≤ 19 →
  ∃ t, getitem (Board_tiles b) (i - 1) = Ok t
       ∧ t ∈ Board_tiles b ∧ Tile_id t = i.
Proof.
  intros Hids%Board_new_ids Hi.
  assert (length (Board_tiles b) = 19%nat) as Hlen.
  { by rewrite <- (length_fmap Tile_id), Hids, length_seqZ. }
  destruct (getitem_in_range (Board_tiles b) (i - 1)) as (t & Hget & Hl);
    [lia|].
  exists t. split; [done|]. split; [by eapply list_elem_of_lookup_2|].
  assert ((Tile_id <$> Board_tiles b) !! Z.to_nat (i - 1) = Some (Tile_id t))
    as H1 by by rewrite list_lookup_fmap, Hl.
  rewrite Hids in H1. apply lookup_seqZ in H1 as [-> _]. lia.
Qed.

Lemma edges_at_graph_in_range s e :
  e ∈ edges_at _graph s → 1 ≤ edge_to e ≤ 19.
Proof.
  intros [[Hin _]|(e' & Hin & _ & ->)]%elem_of_edges_at;
    apply _graph_in_range in Hin; cbn; lia.
Qed.

(** On a returned board [neighbors_for] never raises for a tile of the
    board: it returns between three and six tiles of the board, one per
    edge of [_edges_for] and in that order. *)
Theorem neighbors_for_generated fuel options g b t :
  (Board_new fuel options g).1 = Ok b →
  t ∈ Board_tiles b →
  ∃ ts,
    neighbors_for b t = Ok ts
    ∧ Tile_id <$> ts = edge_to <$> _edges_for b t
    ∧ (∀ t', t' ∈ ts → t' ∈ Board_tiles b)
    ∧ (3 ≤ length ts ≤ 6)%nat.
Proof.
  intros Hnew Ht.
  pose proof (Board_new_tile_id _ _ _ _ _ Hnew Ht) as Hid.
  destruct (Board_new_tiles _ _ _ _ Hnew)
    as (_ & _ & _ & _ & _ & _ & _ & _ & Hg & _).
  set (f := λ e : Edge,
         match getitem (Board_tiles b) (edge_to e - 1) with
         | Ok t' => t'
         | _ => t
         end).
  assert (∀ e, e ∈ _edges_for b t →
            getitem (Board_tiles b) (edge_to e - 1) = Ok (f e)
            ∧ f e ∈ Board_tiles b ∧ Tile_id (f e) = edge_to e) as Hf.
  { intros e He. rewrite _edges_for_at, Hg in He.
    apply edges_at_graph_in_range in He.
    destruct (Board_new_tile_at _ _ _ _ _ Hnew He) as (t' & Hget & Hin & Hid').
    unfold f. by rewrite Hget. }
  exists (f <$> _edges_for b t). split; [|split; [|split]].
  - apply neighbors_for_run. intros e He. by apply Hf.
  - rewrite <- list_fmap_compose. apply list_fmap_ext.
    intros i e He. apply Hf. by eapply list_elem_of_lookup_2.
  - intros t' (e & -> & He)%list_elem_of_fmap. by apply Hf.
  - rewrite length_fmap, _edges_for_at, Hg.
    assert (degree_in_range (Tile_id t) = true) as Hdeg.
    { apply (forallb_elem_of _ _ _ degrees_in_range). apply elem_of_seqZ. lia. }
    unfold degree_in_range in Hdeg.
    apply andb_prop in Hdeg as [?%Nat.leb_le ?%Nat.leb_le]. lia.
Qed.

Lemma neighbors_for_generated_witness :
  ∃ ts,
    neighbors_for sample_random (mkTile 19 TerP (Some 5)) = Ok ts
    ∧ Tile_id <$> ts
      = edge_to <$> _edges_for sample_random (mkTile 19 TerP (Some 5))
    ∧ (∀ t', t' ∈ ts → t' ∈ Board_tiles sample_random)
    ∧ (3 ≤ length ts ≤ 6)%nat.
Proof.
  apply (neighbors_for_generated 12 all_random rng0).
  - vm_compute. reflexivity.
  - apply (bool_decide_unpack _). vm_compute. exact I.
Defined.

(** On a returned board the neighbour relation is symmetric. *)
Theorem neighbors_for_symmetric fuel options g b t t' ts ts' :
  (Board_new fuel options g).1 = Ok b →
  t ∈ Board_tiles b →
  t' ∈ Board_tiles b →
  neighbors_for b t = Ok ts →
  neighbors_for b t' = Ok ts' →
  t' ∈ ts ↔ t ∈ ts'.
Proof.
  intros Hnew.
  assert (∀ u u' us us',
            u ∈ Board_tiles b → u' ∈ Board_tiles b →
            neighbors_for b u = Ok us → neighbors_for b u' = Ok us' →
            u' ∈ us → u ∈ us') as Hhalf.
  { intros u u' us us' Hu Hu' Hus Hus' Hin.
    apply neighbors_for_Ok in Hus, Hus'.
    apply list_elem_of_lookup in Hin as [i Hi].
    destruct (Forall2_lookup_r _ _ _ _ _ Hus Hi) as (e & He & Hget).
    apply list_elem_of_lookup_2 in He.
    pose proof (tile_at_unique fuel options g b u' Hnew Hu') as Hback.
    assert (Tile_id u' = edge_to e) as Hto.
    { destruct (Board_new_tiles _ _ _ _ Hnew)
        as (_ & _ & _ & _ & _ & _ & _ & _ & Hg & _).
      pose proof He as He2. rewrite _edges_for_at, Hg in He2.
      apply edges_at_graph_in_range in He2.
      destruct (Board_new_tile_at _ _ _ _ _ Hnew He2) as (x & Hx & _ & <-).
      congruence. }
    rewrite _edges_for_at in He.
    pose proof (edges_at_invert _ _ _ He) as Hinv.
    rewrite <- Hto, <- _edges_for_at in Hinv.
    apply list_elem_of_lookup in Hinv as [j Hj].
    destruct (Forall2_lookup_l _ _ _ _ _ Hus' Hj) as (x & Hx & Hgetx).
    apply edges_at_from in He.
    cbn [invert edge_to fst snd] in Hgetx. rewrite He in Hgetx.
    rewrite (tile_at_unique fuel options g b u Hnew Hu) in Hgetx.
    injection Hgetx as <-. by eapply list_elem_of_lookup_2. }
  intros Ht Ht' Hts Hts'. split; by eapply Hhalf.
Qed.

Lemma neighbors_for_symmetric_witness :
  mkTile 13 TerC (Some 9)
    ∈ [mkTile 13 TerC (Some 9); mkTile 14 TerP (Some 11);
       mkTile 15 TerC (Some 6); mkTile 16 TerP (Some 3);
       mkTile 17 TerF (Some 8); mkTile 18 TerH (Some 10)]
  ↔ mkTile 19 TerP (Some 5)
    ∈ [mkTile 14 TerP (Some 11); mkTile 18 TerH (Some 10);
       mkTile 19 TerP (Some 5); mkTile 1 TerF (Some 2);
       mkTile 2 TerD None; mkTile 12 TerM (Some 6)].
Proof.
  apply (neighbors_for_symmetric 12 all_random rng0 sample_random
           (mkTile 19 TerP (Some 5)) (mkTile 13 TerC (Some 9))).
  - vm_compute. reflexivity.
  - apply (bool_decide_unpack _). vm_compute. exact I.
  - apply (bool_decide_unpack _). vm_compute. exact I.
  - vm_compute. reflexivity.
  - vm_compute. reflexivity.
Defined.

Lemma getitem_out_of_range {A : Type} (l : list A) (i : Z) :
  ¬ (- Z.of_nat (length l) ≤ i < Z.of_nat (length l)) →
  getitem l i = Raise IndexError.
Proof.
  intros Hi. unfold getitem. cbv zeta.
  destruct (_ && _) eqn:Hc; [|done].
  apply andb_prop in Hc as [?%Z.leb_le ?%Z.ltb_lt].
  destruct (Z.ltb_spec i 0); lia.
Qed.

Lemma getitem_cases {A : Type} (l : list A) (i : Z) :
  (∃ x, getitem l i = Ok x) ∨ getitem l i = Raise IndexError.
Proof.
  unfold getitem. cbv zeta. destruct (_ && _); [|by right].
  destruct (l !! _) as [x|]; [left; by exists x|by right].
Qed.

Lemma neighbors_for_cases self tile :
  (∃ ts, neighbors_for self tile = Ok ts)
  ∨ neighbors_for self tile = Raise IndexError.
Proof.
  unfold neighbors_for. generalize (_edges_for self tile). intros es.
  induction es as [|e es IH]; cbn [foldr]; [left; by eexists|].
  destruct (getitem_cases (Board_tiles self) (edge_to e - 1)) as [[t ->]| ->];
    [|by right].
  destruct IH as [[ts ->]| ->]; [left; by eexists|by right].
Qed.

(** On any board, [neighbors_for] raises [IndexError] as soon as one of
    the edges of the tile leads to a slot the tile list does not reach. *)
Theorem neighbors_for_missing_tile self tile e :
  e ∈ _edges_for self tile →
  ¬ (- Z.of_nat (length (Board_tiles self)) ≤ edge_to e - 1
     < Z.of_nat (length (Board_tiles self))) →
  neighbors_for self tile = Raise IndexError.
Proof.
  intros He Hout.
  destruct (neighbors_for_cases self tile) as [[ts Hts]|]; [|done].
  apply neighbors_for_Ok in Hts.
  apply list_elem_of_lookup in He as [i Hi].
  destruct (Forall2_lookup_l _ _ _ _ _ Hts Hi) as (t & _ & Hget).
  by rewrite getitem_out_of_range in Hget.
Qed.

Lemma neighbors_for_missing_tile_witness :
  neighbors_for
    (mkBoard all_fixed [mkTile 1 TerF (Some 5); mkTile 2 TerD None] None
       (mkTile 2 TerD None) _graph)
    (mkTile 1 TerF (Some 5))
  = Raise IndexError.
Proof.
  apply (neighbors_for_missing_tile _ _ (1, 12, DirE)).
  - apply (bool_decide_unpack _). vm_compute. exact I.
  - cbn. lia.
Defined.

(** ** The constructor with arguments *)

(** With a non-empty [tiles] argument the constructor neither reads the
    options nor draws from the generator: it keeps the tiles, leaves
    [ports] unset and picks the centre at index [center or 10], counting
    from the end when that is negative. *)
Theorem supplied_tiles_kept fuel options tiles graph center s :
  tiles ≠ [] →
  - Z.of_nat (length tiles) ≤ center_or_10 center < Z.of_nat (length tiles) →
  ∃ b,
    Board_init fuel options (Some tiles) graph center s = (Ok b, s)
    ∧ Board_tiles b = tiles
    ∧ Board_ports b = st_ports s
    ∧ Board_tiles b
        !! Z.to_nat (center_or_10 center mod Z.of_nat (length tiles))
      = Some (Board_center_tile b).
Proof.
  intros Hne Hc. destruct tiles as [|t ts]; [done|].
  set (tiles := t :: ts) in *.
  set (c := center_or_10 center) in *.
  set (n := Z.of_nat (length tiles)) in *.
  assert (getitem tiles c = getitem tiles (c mod n)) as Hmod.
  { unfold getitem. cbv zeta. fold n.
    destruct (Z.ltb_spec c 0).
    - replace (c mod n) with (c + n)
        by (apply Z.mod_unique with (-1); lia).
      destruct (Z.ltb_spec (c + n) 0); [lia|done].
    - rewrite Z.mod_small by lia. destruct (Z.ltb_spec c 0); [lia|done]. }
  destruct (getitem_in_range tiles (c mod n)) as (x & Hx & Hl).
  { fold n. apply Z.mod_pos_bound. lia. }
  exists (mkBoard options tiles (st_ports s) x
            (match graph with Some (e :: es) => e :: es | _ => _graph end)).
  split; [|done].
  unfold Board_init. fold tiles.
  rewrite (bind_eq (ret tiles) _ _ _ _ eq_refl).
  rewrite (bind_eq _ (λ center_tile, _) s x s); [done|].
  unfold lift. f_equal. fold c. by rewrite Hmod.
Qed.

Lemma supplied_tiles_kept_witness :
  ∃ b,
    Board_init 0 ∅ (Some [mkTile 1 TerF (Some 5); mkTile 2 TerD None]) None
      (Some (-1)) (mkState rng0 None)
    = (Ok b, mkState rng0 None)
    ∧ Board_tiles b = [mkTile 1 TerF (Some 5); mkTile 2 TerD None]
    ∧ Board_ports b = st_ports (mkState rng0 None)
    ∧ Board_tiles b
        !! Z.to_nat (center_or_10 (Some (-1))
                     mod Z.of_nat (length [mkTile 1 TerF (Some 5);
                                           mkTile 2 TerD None]))
      = Some (Board_center_tile b).
Proof.
  apply supplied_tiles_kept.
  - discriminate.
  - cbn. lia.
Defined.

(** With a non-empty [tiles] argument too short for the index
    [center or 10], the constructor raises [IndexError]; with the default
    [center] that is every list of a single tile. *)
Theorem supplied_tiles_too_short fuel options tiles graph center s :
  tiles ≠ [] →
  ¬ (- Z.of_nat (length tiles) ≤ center_or_10 center
     < Z.of_nat (length tiles)) →
  Board_init fuel options (Some tiles) graph center s = (Raise IndexError, s).
Proof.
  intros Hne Hc. destruct tiles as [|t ts]; [done|].
  unfold Board_init.
  rewrite (bind_eq (ret (t :: ts)) _ _ _ _ eq_refl).
  apply bind_Raise. unfold lift. f_equal. by apply getitem_out_of_range.
Qed.

Lemma supplied_tiles_too_short_witness :
  Board_init 0 all_fixed (Some [mkTile 1 TerD None]) None default_center
    (mkState rng0 None)
  = (Raise IndexError, mkState rng0 None).
Proof.
  apply supplied_tiles_too_short.
  - discriminate.
  - cbn. lia.
Defined.

(** A [graph] argument changes the graph the board answers queries with,
    not the graph that generation validates against: the tiles returned
    under [randomize_production] are free of red adjacency over the class
    graph, whatever graph and centre are passed. *)
Theorem custom_graph_not_validated fuel options graph center s b :
  options !! "randomize_production"%string = Some true →
  (Board_init fuel options None graph center s).1 = Ok b →
  red_free _graph (Board_tiles b)
  ∧ Board_graph b = match graph with
                    | Some (e :: es) => e :: es
                    | _ => _graph
                    end.
Proof.
  intros Hrp.
  destruct (Board_init fuel options None graph center s) as [r s'] eqn:Hinit.
  cbn [fst]. intros ->. unfold Board_init in Hinit.
  apply bind_Ok in Hinit as (tiles & s1 & Hgen & H).
  apply bind_Ok in H as (c & s2 & _ & H).
  apply bind_Ok in H as (ports & s3 & _ & H).
  apply ret_Ok in H as [-> _]. cbn [Board_tiles Board_graph].
  apply _generate_Ok in Hgen as (rp & rq & td & Hrp' & _ & _ & -> & Hchk & _).
  split; [|reflexivity]. apply check_red_free, Hchk. congruence.
Qed.

Lemma custom_graph_not_validated_witness :
  red_free _graph (Board_tiles sample_random)
  ∧ Board_graph
      (mkBoard all_random (Board_tiles sample_random)
         (Board_ports sample_random) (mkTile 1 TerF (Some 2)) [(3, 12, DirE)])
    = [(3, 12, DirE)].
Proof.
  apply (custom_graph_not_validated 12 all_random (Some [(3, 12, DirE)])
           (Some (-19)) (mkState rng0 None)
           (mkBoard all_random (Board_tiles sample_random)
              (Board_ports sample_random) (mkTile 1 TerF (Some 2))
              [(3, 12, DirE)])).
  - vm_compute. reflexivity.
  - vm_compute. reflexivity.
Defined.

(** * The renderer *)

(** ** The angle table *)

Lemma tuple_index_angle d :
  ∃ i, tuple_index _angle_order d = Ok i ∧ 0 ≤ i ≤ 5.
Proof. destruct d; eexists; (split; [reflexivity|lia]). Qed.

(** The angle the renderer takes for a direction and the angle it takes
    for the inverse direction differ by half a turn. *)
Theorem inverse_direction_is_half_turn d i j :
  tuple_index _angle_order d = Ok i →
  tuple_index _angle_order (_direction_pairs d) = Ok j →
  (j * 60) mod 360 = (i * 60 + 180) mod 360.
Proof. destruct d; intros [= <-] [= <-]; reflexivity. Qed.

Lemma inverse_direction_is_half_turn_witness :
  (1 * 60) mod 360 = (4 * 60 + 180) mod 360.
Proof.
  apply (inverse_direction_is_half_turn DirNW 4 1); reflexivity.
Defined.

(** ** The dictionary of centres *)

Section dict.
Context {V : Type}.
Implicit Types (d : list (Z * V)) (k : Z) (v : V).

Lemma dict_get_Some d k : k ∈ d.*1 → is_Some (dict_get k d).
Proof.
  induction d as [|[k' v'] d IH]; cbn [dict_get fmap list_fmap fst].
  - by intros ?%elem_of_nil.
  - intros Hin. destruct (decide (k' = k)) as [->|Hne]; [by eexists|].
    apply IH. by apply elem_of_cons in Hin as [->|Hin].
Qed.

Lemma dict_set_fresh d k v : k ∉ d.*1 → dict_set k v d = d ++ [(k, v)].
Proof.
  induction d as [|[k' v'] d IH]; cbn [dict_set fmap list_fmap fst]; [done|].
  intros [Hne Hin]%not_elem_of_cons.
  destruct (decide (k' = k)) as [->|_]; [done|]. by rewrite IH.
Qed.
End dict.

(** ** The first loop of [draw] on a returned board *)

Section draw_facts.
Context (ops : float_ops).

Lemma seqZ_snoc k : 0 ≤ k → seqZ 1 (k + 1) = seqZ 1 k ++ [k + 1].
Proof.
  intros Hk. rewrite seqZ_app by lia.
  f_equal. rewrite seqZ_cons by lia. rewrite seqZ_nil by lia.
  f_equal. lia.
Qed.

Lemma place_tiles_path b rest last centers k :
  Board_graph b = _graph →
  Tile_id last = k → 1 ≤ k → k + Z.of_nat (length rest) ≤ 19 →
  centers.*1 = seqZ 1 k →
  Tile_id <$> rest = seqZ (k + 1) (Z.of_nat (length rest)) →
  ∃ centers',
    place_tiles ops b rest (Some last) centers = UiOk centers'
    ∧ centers'.*1 = seqZ 1 (k + Z.of_nat (length rest)).
Proof.
  intros Hg. revert last centers k.
  induction rest as [|t rest IH]; intros last centers k Hlast Hk Hmax Hkeys Hids.
  { exists centers. split; [done|]. rewrite Hkeys. cbn [length]. by rewrite Z.add_0_r. }
  cbn [length] in Hmax, Hids. rewrite seqZ_cons in Hids by lia.
  cbn [fmap list_fmap] in Hids. injection Hids as Ht Hids.
  cbn [place_tiles].
  destruct (dict_get_Some centers (Tile_id last)) as [ref_center ->].
  { rewrite Hkeys, Hlast. apply elem_of_seqZ. lia. }
  assert (adjacent _graph (Tile_id last) (Tile_id t)) as Hadj.
  { rewrite Ht, Hlast. apply consecutive_adjacent. lia. }
  destruct (direction_at_adjacent _ _ Hadj) as (d & _ & Hd & _).
  rewrite direction_at_ids, Hg, Hd. cbn [of_res ui_bind].
  destruct (tuple_index_angle d) as (i & -> & _). cbn [of_res ui_bind].
  rewrite dict_set_fresh.
  2:{ rewrite Hkeys, Ht. intros Hin%elem_of_seqZ. lia. }
  destruct (IH t (centers ++ [(Tile_id t, step_from ops ref_center (i * 60))])
              (k + 1)) as (centers' & -> & Hkeys').
  - done.
  - lia.
  - lia.
  - rewrite fmap_app, Hkeys, Ht. cbn. by rewrite seqZ_snoc by lia.
  - rewrite Hids. f_equal; lia.
  - exists centers'. split; [done|]. rewrite Hkeys'. f_equal.
    cbn [length]. lia.
Qed.

Lemma place_tiles_generated fuel options g b :
  (Board_new fuel options g).1 = Ok b →
  ∃ centers,
    place_tiles ops b (Board_tiles b) None [] = UiOk centers
    ∧ centers.*1 = seqZ 1 19.
Proof.
  intros Hnew. pose proof (Board_new_ids _ _ _ _ Hnew) as Hids.
  destruct (Board_new_tiles _ _ _ _ Hnew)
    as (_ & _ & _ & _ & _ & _ & _ & _ & Hg & _).
  assert (length (Board_tiles b) = 19%nat) as Hlen.
  { by rewrite <- (length_fmap Tile_id), Hids, length_seqZ. }
  destruct (Board_tiles b) as [|t rest]; [done|].
  rewrite seqZ_cons in Hids by lia. cbn [fmap list_fmap] in Hids.
  injection Hids as Ht Hids. cbn [length] in Hlen.
  cbn [place_tiles dict_set].
  destruct (place_tiles_path b rest t [(Tile_id t, (of_int ops 0, of_int ops 0))] 1)
    as (centers & -> & Hkeys).
  - done.
  - done.
  - lia.
  - lia.
  - cbn. by rewrite Ht.
  - rewrite Hids. f_equal. lia.
  - exists centers. split; [done|]. rewrite Hkeys. f_equal. lia.
Qed.
End draw_facts.

(** ** The other loops of [draw] *)

Section draw_loops.
Context (ops : float_ops).

Lemma place_ports_run ports centers acc :
  (∀ p, p ∈ ports → (port_location p).1 ∈ centers.*1) →
  ∃ pcs,
    place_ports ops ports centers acc = UiOk (acc ++ pcs)
    ∧ pcs.*2 = (λ p, angle_of (port_location p).2) <$> ports.
Proof.
  revert acc. induction ports as [|[[tile_id dirn] value] ports IH];
    intros acc Hin.
  { exists []. by rewrite app_nil_r. }
  cbn [place_ports].
  destruct (dict_get_Some centers tile_id) as [ref_center ->].
  { apply (Hin (tile_id, dirn, value)). by left. }
  destruct (tuple_index_angle dirn) as (i & Hi & _).
  rewrite Hi. cbn [of_res ui_bind].
  destruct (IH (acc ++ [((step_from ops ref_center (i * 60)).1,
                         (step_from ops ref_center (i * 60)).2, i * 60)]))
    as (pcs & -> & Hpcs).
  { intros p Hp. apply Hin. by right. }
  eexists (_ :: pcs). split; [by rewrite <- app_assoc|].
  cbn [fmap list_fmap snd]. rewrite Hpcs. f_equal.
  unfold angle_of. cbn [port_location fst snd]. by rewrite Hi.
Qed.

Lemma shift_centers_from off cs acc :
  NoDup (acc.*1 ++ cs.*1) →
  (foldl (λ d '(tile_id, (x, y)),
            dict_set tile_id (fadd ops x off.1, fadd ops y off.2) d)
     acc cs).*1 = acc.*1 ++ cs.*1.
Proof.
  revert acc. induction cs as [|[k [x y]] cs IH]; intros acc Hnd.
  { by rewrite app_nil_r. }
  cbn [foldl fmap list_fmap fst] in *.
  apply NoDup_app in Hnd as (Hacc & Hdisj & Hcs).
  rewrite dict_set_fresh by (intros Hk; apply (Hdisj k Hk); by left).
  rewrite IH.
  - rewrite fmap_app. cbn. by rewrite <- app_assoc.
  - rewrite fmap_app. cbn. rewrite <- app_assoc. cbn.
    apply NoDup_app. split; [done|]. split; [done|done].
Qed.

Lemma shift_centers_keys off cs :
  NoDup cs.*1 → (shift_centers ops off cs).*1 = cs.*1.
Proof. intros Hnd. unfold shift_centers. by rewrite shift_centers_from. Qed.

Lemma draw_tiles_run b cs canvas (f : Z → Tile) :
  (∀ k, k ∈ cs.*1 → getitem (Board_tiles b) (k - 1) = Ok (f k)) →
  ∃ calls,
    draw_tiles ops b cs canvas = (UiOk tt, canvas ++ calls)
    ∧ call_tile ops <$> calls
      = (λ k, Some (Tile_terrain (f k), Tile_value (f k))) <$> cs.*1.
Proof.
  revert canvas. induction cs as [|[k [x y]] cs IH]; intros canvas Hf.
  { exists []. by rewrite app_nil_r. }
  cbn [draw_tiles]. rewrite (Hf k) by by left.
  destruct (IH (canvas ++ [TileCall ops x y (Tile_terrain (f k))
                             (Tile_value (f k))]))
    as (calls & -> & Hcalls).
  { intros k' Hk'. apply Hf. by right. }
  eexists (_ :: calls). split; [by rewrite <- app_assoc|].
  cbn. by rewrite Hcalls.
Qed.
End draw_loops.

(** ** [draw] on a returned board *)

Lemma ports_in_range : forallb port_in_range _port_locations = true.
Proof. vm_compute. reflexivity. Qed.

Section draw_board.
Context (ops : float_ops).

Lemma port_calls_run off (pcs : list (fl ops * fl ops * Z)) (ports : list Port) :
  pcs.*2 = (λ p, angle_of (port_location p).2) <$> ports →
  call_port ops
    <$> ((λ '((x, y, t), value), PortCall ops x y t value)
           <$> zip ((λ '(x, y, t),
                       (fadd ops x off.1, fadd ops y off.2, t + 180)) <$> pcs)
                   (port_kind <$> ports))
  = (λ p, Some (angle_of (port_location p).2 + 180, port_kind p)) <$> ports.
Proof.
  revert pcs. induction ports as [|p ports IH]; intros [|[[x y] t] pcs] Hpcs;
    try done.
  cbn [fmap list_fmap snd] in Hpcs. injection Hpcs as -> Hpcs.
  cbn. f_equal. by apply IH.
Qed.

Lemma draw_run fuel options g b canvas :
  (Board_new fuel options g).1 = Ok b →
  ∃ ports tile_calls port_calls,
    Board_ports b = Some ports
    ∧ draw ops b canvas = (UiOk tt, canvas ++ tile_calls ++ port_calls)
    ∧ call_tile ops <$> tile_calls
      = (λ t, Some (Tile_terrain t, Tile_value t)) <$> Board_tiles b
    ∧ call_port ops <$> port_calls
      = (λ p, Some (angle_of (port_location p).2 + 180, port_kind p))
          <$> ports.
Proof.
  intros Hnew.
  destruct (place_tiles_generated ops _ _ _ _ Hnew) as (centers & Hplace & Hkeys).
  destruct (Board_new_tiles _ _ _ _ Hnew) as (_ & rq & _ & _ & Hrq & _).
  destruct (Board_new_ports _ _ _ _ _ Hrq Hnew) as (ports & Hports & Hloc & _).
  destruct (place_ports_run ops ports centers []) as (pcs & Hpp & Hpcs).
  { intros p Hp. rewrite Hkeys. apply elem_of_seqZ.
    assert (port_location p ∈ _port_locations) as Hin.
    { rewrite <- Hloc. by apply list_elem_of_fmap_2. }
    apply (forallb_elem_of _ _ _ ports_in_range) in Hin.
    unfold port_in_range in Hin.
    apply andb_prop in Hin as [?%Z.leb_le ?%Z.leb_le]. lia. }
  set (f := λ k : Z,
         match getitem (Board_tiles b) (k - 1) with
         | Ok t => t
         | _ => mkTile 0 TerD None
         end).
  destruct (draw_tiles_run ops b (shift_centers ops (board_offset ops) centers)
              canvas f) as (tile_calls & Hdraw & Htc).
  { intros k Hk. rewrite shift_centers_keys in Hk
      by (rewrite Hkeys; apply NoDup_seqZ).
    rewrite Hkeys in Hk. apply elem_of_seqZ in Hk.
    destruct (Board_new_tile_at _ _ _ _ k Hnew) as (t & Ht & _); [lia|].
    unfold f. by rewrite Ht. }
  eexists ports, tile_calls, _. split; [done|]. split; [|split].
  - unfold draw. rewrite Hplace, Hports, Hpp. cbn [app]. cbv zeta.
    rewrite Hdraw. by rewrite <- app_assoc.
  - rewrite Htc, shift_centers_keys by (rewrite Hkeys; apply NoDup_seqZ).
    rewrite Hkeys, <- (Board_new_ids _ _ _ _ Hnew), <- list_fmap_compose.
    apply list_fmap_ext. intros i t Ht. cbn.
    apply list_elem_of_lookup_2 in Ht.
    unfold f. by rewrite (tile_at_unique _ _ _ _ _ Hnew Ht).
  - by apply port_calls_run.
Qed.
End draw_board.

(** On a board that the constructor returned, [draw] raises nothing,
    whatever the float arithmetic computes: it adds to the canvas one
    [_draw_tile] call per tile, in id order and with that tile's terrain
    and value, and then one [_draw_port] call per port, in the order of
    [board.ports], with that port's kind and the angle of its direction
    plus 180. *)
Theorem draw_generated ops fuel options g b canvas :
  (Board_new fuel options g).1 = Ok b →
  ∃ ports tile_calls port_calls,
    Board_ports b = Some ports
    ∧ draw ops b canvas = (UiOk tt, canvas ++ tile_calls ++ port_calls)
    ∧ call_tile ops <$> tile_calls
      = (λ t, Some (Tile_terrain t, Tile_value t)) <$> Board_tiles b
    ∧ call_port ops <$> port_calls
      = (λ p, Some (angle_of (port_location p).2 + 180, port_kind p))
          <$> ports.
Proof. apply draw_run. Qed.

Lemma draw_generated_witness :
  ∃ ports tile_calls port_calls,
    Board_ports sample_random = Some ports
    ∧ draw Z_ops sample_random [] = (UiOk tt, [] ++ tile_calls ++ port_calls)
    ∧ call_tile Z_ops <$> tile_calls
      = (λ t, Some (Tile_terrain t, Tile_value t)) <$> Board_tiles sample_random
    ∧ call_port Z_ops <$> port_calls
      = (λ p, Some (angle_of (port_location p).2 + 180, port_kind p))
          <$> ports.
Proof.
  apply (draw_generated Z_ops 12 all_random rng0 sample_random []).
  vm_compute. reflexivity.
Defined.

(** ** [draw] on other boards *)

Section draw_errors.
Context (ops : float_ops).

Lemma direction_cases self src dst :
  (∃ d, direction self src dst = Ok d)
  ∨ direction self src dst = Raise StopIteration.
Proof.
  unfold direction. destruct (filter _ _) as [|e es]; [by right|].
  left. by eexists.
Qed.

Lemma place_tiles_cases b tiles last centers :
  (∃ centers', place_tiles ops b tiles last centers = UiOk centers')
  ∨ (∃ e, place_tiles ops b tiles last centers = UiRaise e).
Proof.
  revert last centers. induction tiles as [|t tiles IH]; intros last centers.
  { left. by eexists. }
  cbn [place_tiles]. destruct last as [last_tile|]; [|apply IH].
  destruct (dict_get (Tile_id last_tile) centers) as [ref_center|];
    [|right; by eexists].
  destruct (direction_cases b last_tile t) as [[d ->]| ->];
    [|right; by eexists].
  cbn [of_res ui_bind].
  destruct (tuple_index_angle d) as (i & -> & _). cbn [of_res ui_bind].
  apply IH.
Qed.

Lemma draw_no_ports b canvas :
  Board_ports b = None → ∃ e, draw ops b canvas = (UiRaise e, canvas).
Proof.
  intros Hports. unfold draw. rewrite Hports.
  destruct (place_tiles_cases b (Board_tiles b) None [])
    as [[centers ->]|[e ->]]; by eexists.
Qed.
End draw_errors.

(** A board built from a [tiles] argument has no [ports] attribute, so
    [draw] never completes on it: it raises and leaves the canvas as it
    was. *)
Theorem draw_supplied_tiles ops fuel options tiles graph center g b canvas :
  tiles ≠ [] →
  (Board_init fuel options (Some tiles) graph center (mkState g None)).1 = Ok b →
  ∃ e, draw ops b canvas = (UiRaise e, canvas).
Proof.
  intros Hne Hinit. apply draw_no_ports.
  destruct tiles as [|t ts]; [done|].
  destruct (Board_init _ _ _ _ _ _) as [r s'] eqn:Hb. cbn [fst] in Hinit.
  subst r. unfold Board_init in Hb.
  apply bind_Ok in Hb as (tiles' & s1 & [-> ->]%ret_Ok & H).
  apply bind_Ok in H as (c & s2 & [_ ->]%lift_Ok & H).
  apply bind_Ok in H as (ports & s3 & Hp & H).
  unfold get_ports in Hp. injection Hp as <- <-.
  apply ret_Ok in H as [-> _]. reflexivity.
Qed.

Lemma draw_supplied_tiles_witness :
  ∃ e,
    draw Z_ops
      (mkBoard all_fixed [mkTile 1 TerF (Some 5); mkTile 2 TerD None] None
         (mkTile 2 TerD None) _graph)
      [] = (UiRaise e, []).
Proof.
  apply (draw_supplied_tiles Z_ops 0 all_fixed
           [mkTile 1 TerF (Some 5); mkTile 2 TerD None] None default_center
           rng0).
  - discriminate.
  - vm_compute. reflexivity.
Defined.

(** When the second tile of the board is not a neighbour of the first,
    [draw] stops with the [StopIteration] of [direction] before anything
    is drawn. *)
Theorem draw_broken_path ops b t1 t2 rest canvas :
  Board_tiles b = t1 :: t2 :: rest →
  ¬ adjacent (Board_graph b) (Tile_id t1) (Tile_id t2) →
  draw ops b canvas = (UiRaise (BoardExn StopIteration), canvas).
Proof.
  intros Htiles Hna. unfold draw. rewrite Htiles.
  cbn [place_tiles dict_set dict_get].
  destruct (decide (Tile_id t1 = Tile_id t1)); [|done].
  rewrite direction_at_ids, (direction_at_not_adjacent _ _ _ Hna). done.
Qed.

Lemma draw_broken_path_witness :
  draw Z_ops
    (mkBoard all_fixed [mkTile 1 TerF (Some 5); mkTile 3 TerD None] None
       (mkTile 3 TerD None) _graph)
    [] = (UiRaise (BoardExn StopIteration), []).
Proof.
  apply (draw_broken_path Z_ops _ (mkTile 1 TerF (Some 5)) (mkTile 3 TerD None) []).
  - reflexivity.
  - cbn [Board_graph Tile_id]. rewrite adjacent_edges_at.
    apply (bool_decide_unpack _). vm_compute. exact I.
Defined.

(** ** [redraw] *)

(** With both option keys present [redraw] raises nothing.  When it
    returns, whatever was on the canvas is gone and the canvas holds the
    nineteen tile calls followed by the nine port calls of a fresh
    board. *)
Theorem redraw_never_raises ops fuel options g canvas :
  is_Some (options !! "randomize_production"%string) →
  is_Some (options !! "randomize_ports"%string) →
  (∀ e, (redraw ops fuel options g canvas).1.1 ≠ UiRaise e)
  ∧ ((redraw ops fuel options g canvas).1.1 = UiOk tt →
     ∃ tile_calls port_calls,
       (redraw ops fuel options g canvas).1.2 = tile_calls ++ port_calls
       ∧ length tile_calls = 19%nat ∧ length port_calls = 9%nat
       ∧ Forall (λ c, is_Some (call_tile ops c)) tile_calls
       ∧ Forall (λ c, is_Some (call_port ops c)) port_calls).
Proof.
  intros Hrp Hrq. unfold redraw.
  pose proof (Board_new_no_Raise fuel options g) as Hno.
  destruct (Board_new fuel options g) as [[b|e'|] s] eqn:Hnew; cbn [fst snd].
  - assert ((Board_new fuel options g).1 = Ok b) as Hb by by rewrite Hnew.
    destruct (draw_run ops _ _ _ _ [] Hb)
      as (ports & tcs & pcs & Hports & -> & Htcs & Hpcs).
    cbn [fst snd app]. split; [done|]. intros _. exists tcs, pcs.
    destruct (Board_new_tiles _ _ _ _ Hb) as (_ & rq & _ & _ & Hrq' & _).
    destruct (Board_new_ports _ _ _ _ _ Hrq' Hb) as (ports' & Hports' & Hloc & _).
    assert (ports' = ports) as -> by congruence.
    split; [done|]. split; [|split; [|split]].
    + rewrite <- (length_fmap (call_tile ops)), Htcs, length_fmap.
      by rewrite <- (length_fmap Tile_id), (Board_new_ids _ _ _ _ Hb), length_seqZ.
    + rewrite <- (length_fmap (call_port ops)), Hpcs, length_fmap.
      by rewrite <- (length_fmap port_location), Hloc.
    + apply (proj1 (Forall_fmap (call_tile ops) is_Some tcs)).
      rewrite Htcs. apply Forall_fmap, Forall_true. intros t. by eexists.
    + apply (proj1 (Forall_fmap (call_port ops) is_Some pcs)).
      rewrite Hpcs. apply Forall_fmap, Forall_true. intros p. by eexists.
  - exfalso. by apply (Hno e').
  - split; [done|done].
Qed.

Lemma redraw_never_raises_witness :
  (∀ e, (redraw Z_ops 1 all_fixed rng0 [TileCall Z_ops 0 0 TerD None]).1.1
        ≠ UiRaise e)
  ∧ ((redraw Z_ops 1 all_fixed rng0 [TileCall Z_ops 0 0 TerD None]).1.1
       = UiOk tt →
     ∃ tile_calls port_calls,
       (redraw Z_ops 1 all_fixed rng0 [TileCall Z_ops 0 0 TerD None]).1.2
         = tile_calls ++ port_calls
       ∧ length tile_calls = 19%nat ∧ length port_calls = 9%nat
       ∧ Forall (λ c, is_Some (call_tile Z_ops c)) tile_calls
       ∧ Forall (λ c, is_Some (call_port Z_ops c)) port_calls).
Proof.
  apply redraw_never_raises.
  - eexists. vm_compute. reflexivity.
  - eexists. vm_compute. reflexivity.
Defined.
